(** * The cFS shim layer: macro templates, their instantiations, and what
      the generated C means.

    The repository consists of two generations of the same shim layer:

    - [src/cfs-shims.c] with its hand-written header [src/cfs-shims.h];
    - [src/cfs-sys/cfs-shims.c], which obtains its function definitions by
      including [src/cfs-sys/cfs-shims.h] after defining [shim1]/[shim2],
      together with the constant re-exports of [src/cfs-sys/cfs-api.h].

    Macro expansion is modelled as functions from macro arguments (tokens,
    i.e. strings) to the syntax of the C declaration the macro body spells
    out; the few C constructs that appear are given a big-step semantics in
    which the wrapped middleware (cFE, OSAL) is a parameter. *)

From Stdlib Require Import String List Bool Arith ZArith Lia.
Import ListNotations.
Open Scope string_scope.
Open Scope list_scope.

(** ** C syntax that the macro bodies produce *)

Definition ident := string.
Definition ctype := string.

(** The preprocessor's [##] operator. *)
Definition paste (a b : string) : string := String.append a b.

#[warnings="-register-all"]
Inductive expr : Type :=
| Evar (x : ident)
| Efield (e : expr) (fld : ident)
| Ecall (f : ident) (args : list expr).

Inductive stmt : Type :=
| Sreturn (e : expr).

Record signature : Type := mksig {
  sig_res : ctype;
  sig_args : list ctype
}.

(** [rettype name(params) { body }] *)
Record fundef : Type := mkfun {
  fn_return : ctype;
  fn_name : ident;
  fn_params : list (ctype * ident);
  fn_body : stmt
}.

(** [rettype name(params);] *)
Record prototype : Type := proto {
  pr_return : ctype;
  pr_name : ident;
  pr_params : list (ctype * ident)
}.

(** [[const] type name = init;] at file scope. *)
Record globdef : Type := mkglob {
  gv_const : bool;
  gv_type : ctype;
  gv_name : ident;
  gv_init : expr
}.

Definition fn_sig (fd : fundef) : signature :=
  mksig (fn_return fd) (map fst (fn_params fd)).

Definition pr_sig (p : prototype) : signature :=
  mksig (pr_return p) (map fst (pr_params p)).

Definition fn_proto (fd : fundef) : prototype :=
  proto (fn_return fd) (fn_name fd) (fn_params fd).

(** ** src/cfs-shims.c and src/cfs-shims.h *)

Module Shims.

(** [#define shim1(rettype, fname, arg1type)] *)
Definition shim1 (rettype : ctype) (fname : ident) (arg1type : ctype) : fundef :=
  mkfun rettype (paste "SHIM_" fname)
        [(arg1type, "arg1")]
        (Sreturn (Ecall fname [Evar "arg1"])).

(** [#define shim2(rettype, fname, arg1type, arg2type)] *)
Definition shim2 (rettype : ctype) (fname : ident) (arg1type arg2type : ctype) : fundef :=
  mkfun rettype (paste "SHIM_" fname)
        [(arg1type, "arg1"); (arg2type, "arg2")]
        (Sreturn (Ecall fname [Evar "arg1"; Evar "arg2"])).

(** Lines 29-57 of cfs-shims.c. *)
Definition cfs_shims_c : list fundef :=
  [
    shim1 "unsigned long" "CFE_ResourceId_ToInteger" "CFE_ResourceId_t";
    shim1 "CFE_ResourceId_t" "CFE_ResourceId_FromInteger" "unsigned long";
    shim2 "bool" "CFE_ResourceId_Equal" "CFE_ResourceId_t" "CFE_ResourceId_t";
    shim1 "bool" "CFE_ResourceId_IsDefined" "CFE_ResourceId_t";

    shim2 "bool" "CFE_SB_MsgId_Equal" "CFE_SB_MsgId_t" "CFE_SB_MsgId_t";
    shim1 "CFE_SB_MsgId_Atom_t" "CFE_SB_MsgIdToValue" "CFE_SB_MsgId_t";
    shim1 "CFE_SB_MsgId_t" "CFE_SB_ValueToMsgId" "CFE_SB_MsgId_Atom_t";

    shim1 "int64" "OS_TimeGetTotalSeconds" "OS_time_t";
    shim1 "int64" "OS_TimeGetTotalMilliseconds" "OS_time_t";
    shim1 "int64" "OS_TimeGetTotalMicroseconds" "OS_time_t";
    shim1 "int64" "OS_TimeGetTotalNanoseconds" "OS_time_t";
    shim1 "int64" "OS_TimeGetFractionalPart" "OS_time_t";
    shim1 "uint32" "OS_TimeGetSubsecondsPart" "OS_time_t";
    shim1 "uint32" "OS_TimeGetMillisecondsPart" "OS_time_t";
    shim1 "uint32" "OS_TimeGetMicrosecondsPart" "OS_time_t";
    shim1 "uint32" "OS_TimeGetNanosecondsPart" "OS_time_t";
    shim2 "OS_time_t" "OS_TimeAssembleFromNanoseconds" "int64" "uint32";
    shim2 "OS_time_t" "OS_TimeAssembleFromMicroseconds" "int64" "uint32";
    shim2 "OS_time_t" "OS_TimeAssembleFromMilliseconds" "int64" "uint32";
    shim2 "OS_time_t" "OS_TimeAssembleFromSubseconds" "int64" "uint32";
    shim2 "OS_time_t" "OS_TimeAdd" "OS_time_t" "OS_time_t";
    shim2 "OS_time_t" "OS_TimeSubtract" "OS_time_t" "OS_time_t";

    shim1 "unsigned long" "OS_ObjectIdToInteger" "osal_id_t";
    shim1 "osal_id_t" "OS_ObjectIdFromInteger" "unsigned long";
    shim2 "bool" "OS_ObjectIdEqual" "osal_id_t" "osal_id_t";
    shim1 "bool" "OS_ObjectIdDefined" "osal_id_t"
  ].

(** Lines 11-36 of cfs-shims.h. *)
Definition cfs_shims_h : list prototype :=
  [
    proto "unsigned long" "SHIM_CFE_ResourceId_ToInteger" [("CFE_ResourceId_t", "id")];
    proto "CFE_ResourceId_t" "SHIM_CFE_ResourceId_FromInteger" [("unsigned long", "Value")];
    proto "bool" "SHIM_CFE_ResourceId_Equal" [("CFE_ResourceId_t", "id1"); ("CFE_ResourceId_t", "id2")];
    proto "bool" "SHIM_CFE_ResourceId_IsDefined" [("CFE_ResourceId_t", "id")];
    proto "bool" "SHIM_CFE_SB_MsgId_Equal" [("CFE_SB_MsgId_t", "MsgId1"); ("CFE_SB_MsgId_t", "MsgId2")];
    proto "CFE_SB_MsgId_Atom_t" "SHIM_CFE_SB_MsgIdToValue" [("CFE_SB_MsgId_t", "MsgId")];
    proto "CFE_SB_MsgId_t" "SHIM_CFE_SB_ValueToMsgId" [("CFE_SB_MsgId_Atom_t", "MsgIdValue")];
    proto "int64" "SHIM_OS_TimeGetTotalSeconds" [("OS_time_t", "tm")];
    proto "int64" "SHIM_OS_TimeGetTotalMilliseconds" [("OS_time_t", "tm")];
    proto "int64" "SHIM_OS_TimeGetTotalMicroseconds" [("OS_time_t", "tm")];
    proto "int64" "SHIM_OS_TimeGetTotalNanoseconds" [("OS_time_t", "tm")];
    proto "int64" "SHIM_OS_TimeGetFractionalPart" [("OS_time_t", "tm")];
    proto "uint32" "SHIM_OS_TimeGetSubsecondsPart" [("OS_time_t", "tm")];
    proto "uint32" "SHIM_OS_TimeGetMillisecondsPart" [("OS_time_t", "tm")];
    proto "uint32" "SHIM_OS_TimeGetMicrosecondsPart" [("OS_time_t", "tm")];
    proto "uint32" "SHIM_OS_TimeGetNanosecondsPart" [("OS_time_t", "tm")];
    proto "OS_time_t" "SHIM_OS_TimeAssembleFromNanoseconds" [("int64", "seconds"); ("uint32", "nanoseconds")];
    proto "OS_time_t" "SHIM_OS_TimeAssembleFromMicroseconds" [("int64", "seconds"); ("uint32", "microseconds")];
    proto "OS_time_t" "SHIM_OS_TimeAssembleFromMilliseconds" [("int64", "seconds"); ("uint32", "milliseconds")];
    proto "OS_time_t" "SHIM_OS_TimeAssembleFromSubseconds" [("int64", "seconds"); ("uint32", "subseconds")];
    proto "OS_time_t" "SHIM_OS_TimeAdd" [("OS_time_t", "time1"); ("OS_time_t", "time2")];
    proto "OS_time_t" "SHIM_OS_TimeSubtract" [("OS_time_t", "time1"); ("OS_time_t", "time2")];
    proto "unsigned long" "SHIM_OS_ObjectIdToInteger" [("osal_id_t", "object_id")];
    proto "osal_id_t" "SHIM_OS_ObjectIdFromInteger" [("unsigned long", "value")];
    proto "bool" "SHIM_OS_ObjectIdEqual" [("osal_id_t", "object_id1"); ("osal_id_t", "object_id2")];
    proto "bool" "SHIM_OS_ObjectIdDefined" [("osal_id_t", "object_id")]
  ].

End Shims.

(** ** src/cfs-sys *)

Module CfsSys.

(** The instantiation list of cfs-shims.h (lines 25-53).  The header leaves
    the meaning of [shim1] and [shim2] to whoever includes it, so the list is
    parametric in the two macros. *)
Section cfs_shims_h.
Context {decl : Type}.
Variable shim1 : ctype -> ident -> ctype -> ident -> decl.
Variable shim2 : ctype -> ident -> ctype -> ident -> ctype -> ident -> decl.

Definition cfs_shims_h : list decl :=
  [
    shim1 "unsigned long" "CFE_ResourceId_ToInteger" "CFE_ResourceId_t" "id";
    shim1 "CFE_ResourceId_t" "CFE_ResourceId_FromInteger" "unsigned long" "Value";
    shim2 "bool" "CFE_ResourceId_Equal" "CFE_ResourceId_t" "id1" "CFE_ResourceId_t" "id2";
    shim1 "bool" "CFE_ResourceId_IsDefined" "CFE_ResourceId_t" "id";

    shim2 "bool" "CFE_SB_MsgId_Equal" "CFE_SB_MsgId_t" "MsgId1" "CFE_SB_MsgId_t" "MsgId2";
    shim1 "CFE_SB_MsgId_Atom_t" "CFE_SB_MsgIdToValue" "CFE_SB_MsgId_t" "MsgId";
    shim1 "CFE_SB_MsgId_t" "CFE_SB_ValueToMsgId" "CFE_SB_MsgId_Atom_t" "MsgIdValue";

    shim1 "int64" "OS_TimeGetTotalSeconds" "OS_time_t" "tm";
    shim1 "int64" "OS_TimeGetTotalMilliseconds" "OS_time_t" "tm";
    shim1 "int64" "OS_TimeGetTotalMicroseconds" "OS_time_t" "tm";
    shim1 "int64" "OS_TimeGetTotalNanoseconds" "OS_time_t" "tm";
    shim1 "int64" "OS_TimeGetFractionalPart" "OS_time_t" "tm";
    shim1 "uint32" "OS_TimeGetSubsecondsPart" "OS_time_t" "tm";
    shim1 "uint32" "OS_TimeGetMillisecondsPart" "OS_time_t" "tm";
    shim1 "uint32" "OS_TimeGetMicrosecondsPart" "OS_time_t" "tm";
    shim1 "uint32" "OS_TimeGetNanosecondsPart" "OS_time_t" "tm";
    shim2 "OS_time_t" "OS_TimeAssembleFromNanoseconds" "int64" "seconds" "uint32" "nanoseconds";
    shim2 "OS_time_t" "OS_TimeAssembleFromMicroseconds" "int64" "seconds" "uint32" "microseconds";
    shim2 "OS_time_t" "OS_TimeAssembleFromMilliseconds" "int64" "seconds" "uint32" "milliseconds";
    shim2 "OS_time_t" "OS_TimeAssembleFromSubseconds" "int64" "seconds" "uint32" "subseconds";
    shim2 "OS_time_t" "OS_TimeAdd" "OS_time_t" "time1" "OS_time_t" "time2";
    shim2 "OS_time_t" "OS_TimeSubtract" "OS_time_t" "time1" "OS_time_t" "time2";

    shim1 "unsigned long" "OS_ObjectIdToInteger" "osal_id_t" "object_id";
    shim1 "osal_id_t" "OS_ObjectIdFromInteger" "unsigned long" "value";
    shim2 "bool" "OS_ObjectIdEqual" "osal_id_t" "object_id1" "osal_id_t" "object_id2";
    shim1 "bool" "OS_ObjectIdDefined" "osal_id_t" "object_id"
  ].
End cfs_shims_h.

(** The defaults of cfs-shims.h ([#if !defined(shim1)] ...): prototypes. *)
Module Header.

Definition shim1 (rettype : ctype) (fname : ident) (arg1type : ctype) (arg1 : ident)
  : prototype :=
  proto rettype (paste "SHIM_" fname) [(arg1type, arg1)].

Definition shim2 (rettype : ctype) (fname : ident)
           (arg1type : ctype) (arg1 : ident) (arg2type : ctype) (arg2 : ident)
  : prototype :=
  proto rettype (paste "SHIM_" fname) [(arg1type, arg1); (arg2type, arg2)].

(** What a client that includes cfs-shims.h on its own sees. *)
Definition prototypes : list prototype := cfs_shims_h shim1 shim2.

End Header.

(** cfs-shims.c: [shim1]/[shim2] are defined first, then the header is
    included, then one global is written out by hand. *)
Module Source.

Definition shim1 (rettype : ctype) (fname : ident) (arg1type : ctype) (arg1 : ident)
  : fundef :=
  mkfun rettype (paste "SHIM_" fname)
        [(arg1type, arg1)]
        (Sreturn (Ecall fname [Evar arg1])).

Definition shim2 (rettype : ctype) (fname : ident)
           (arg1type : ctype) (arg1 : ident) (arg2type : ctype) (arg2 : ident)
  : fundef :=
  mkfun rettype (paste "SHIM_" fname)
        [(arg1type, arg1); (arg2type, arg2)]
        (Sreturn (Ecall fname [Evar arg1; Evar arg2])).

Definition functions : list fundef := cfs_shims_h shim1 shim2.

(** Line 27: [CFE_ES_StackPointer_t X_CFE_ES_TASK_STACK_ALLOCATE = CFE_ES_TASK_STACK_ALLOCATE;] *)
Definition X_CFE_ES_TASK_STACK_ALLOCATE : globdef :=
  mkglob false "CFE_ES_StackPointer_t" "X_CFE_ES_TASK_STACK_ALLOCATE"
         (Evar "CFE_ES_TASK_STACK_ALLOCATE").

Definition globals : list globdef := [X_CFE_ES_TASK_STACK_ALLOCATE].

End Source.

(** cfs-api.h *)
Module Api.

(** [#define S(IDENT) const CFE_Status_t S_ ## IDENT = IDENT;] *)
Definition S (IDENT : ident) : globdef :=
  mkglob true "CFE_Status_t" (paste "S_" IDENT) (Evar IDENT).

(** [#define X(IDENT, TYPE) const TYPE X_ ## IDENT = IDENT;] *)
Definition X (IDENT : ident) (TYPE : ctype) : globdef :=
  mkglob true TYPE (paste "X_" IDENT) (Evar IDENT).

(** Line 192. *)
Definition X_CFE_SB_DEFAULT_QOS_PRIORITY : globdef :=
  mkglob true "uint8" "X_CFE_SB_DEFAULT_QOS_PRIORITY"
         (Efield (Evar "CFE_SB_DEFAULT_QOS") "Priority").

(** Line 193. *)
Definition X_CFE_SB_DEFAULT_QOS_RELIABILITY : globdef :=
  mkglob true "uint8" "X_CFE_SB_DEFAULT_QOS_RELIABILITY"
         (Efield (Evar "CFE_SB_DEFAULT_QOS") "Reliability").

(** Lines 44-193. *)
Definition cfs_api_h : list globdef :=
  [
    S "CFE_SEVERITY_BITMASK";
    S "CFE_SEVERITY_SUCCESS";
    S "CFE_SEVERITY_INFO";
    S "CFE_SEVERITY_ERROR";
    S "CFE_SERVICE_BITMASK";
    S "CFE_EVENTS_SERVICE";
    S "CFE_EXECUTIVE_SERVICE";
    S "CFE_FILE_SERVICE";
    S "CFE_GENERIC_SERVICE";
    S "CFE_SOFTWARE_BUS_SERVICE";
    S "CFE_TABLE_SERVICE";
    S "CFE_TIME_SERVICE";
    S "CFE_SUCCESS";
    S "CFE_STATUS_NO_COUNTER_INCREMENT";
    S "CFE_STATUS_WRONG_MSG_LENGTH";
    S "CFE_STATUS_UNKNOWN_MSG_ID";
    S "CFE_STATUS_BAD_COMMAND_CODE";
    S "CFE_STATUS_EXTERNAL_RESOURCE_FAIL";
    S "CFE_STATUS_REQUEST_ALREADY_PENDING";
    S "CFE_STATUS_NOT_IMPLEMENTED";
    S "CFE_EVS_UNKNOWN_FILTER";
    S "CFE_EVS_APP_NOT_REGISTERED";
    S "CFE_EVS_APP_ILLEGAL_APP_ID";
    S "CFE_EVS_APP_FILTER_OVERLOAD";
    S "CFE_EVS_RESET_AREA_POINTER";
    S "CFE_EVS_EVT_NOT_REGISTERED";
    S "CFE_EVS_FILE_WRITE_ERROR";
    S "CFE_EVS_INVALID_PARAMETER";
    S "CFE_EVS_NOT_IMPLEMENTED";
    S "CFE_ES_ERR_RESOURCEID_NOT_VALID";
    S "CFE_ES_ERR_NAME_NOT_FOUND";
    S "CFE_ES_ERR_APP_CREATE";
    S "CFE_ES_ERR_CHILD_TASK_CREATE";
    S "CFE_ES_ERR_SYS_LOG_FULL";
    S "CFE_ES_ERR_MEM_BLOCK_SIZE";
    S "CFE_ES_ERR_LOAD_LIB";
    S "CFE_ES_BAD_ARGUMENT";
    S "CFE_ES_ERR_CHILD_TASK_REGISTER";
    S "CFE_ES_CDS_ALREADY_EXISTS";
    S "CFE_ES_CDS_INSUFFICIENT_MEMORY";
    S "CFE_ES_CDS_INVALID_NAME";
    S "CFE_ES_CDS_INVALID_SIZE";
    S "CFE_ES_CDS_INVALID";
    S "CFE_ES_CDS_ACCESS_ERROR";
    S "CFE_ES_FILE_IO_ERR";
    S "CFE_ES_RST_ACCESS_ERR";
    S "CFE_ES_ERR_APP_REGISTER";
    S "CFE_ES_ERR_CHILD_TASK_DELETE";
    S "CFE_ES_ERR_CHILD_TASK_DELETE_MAIN_TASK";
    S "CFE_ES_CDS_BLOCK_CRC_ERR";
    S "CFE_ES_MUT_SEM_DELETE_ERR";
    S "CFE_ES_BIN_SEM_DELETE_ERR";
    S "CFE_ES_COUNT_SEM_DELETE_ERR";
    S "CFE_ES_QUEUE_DELETE_ERR";
    S "CFE_ES_FILE_CLOSE_ERR";
    S "CFE_ES_CDS_WRONG_TYPE_ERR";
    S "CFE_ES_CDS_OWNER_ACTIVE_ERR";
    S "CFE_ES_APP_CLEANUP_ERR";
    S "CFE_ES_TIMER_DELETE_ERR";
    S "CFE_ES_BUFFER_NOT_IN_POOL";
    S "CFE_ES_TASK_DELETE_ERR";
    S "CFE_ES_OPERATION_TIMED_OUT";
    S "CFE_ES_LIB_ALREADY_LOADED";
    S "CFE_ES_ERR_SYS_LOG_TRUNCATED";
    S "CFE_ES_NO_RESOURCE_IDS_AVAILABLE";
    S "CFE_ES_POOL_BLOCK_INVALID";
    S "CFE_ES_ERR_DUPLICATE_NAME";
    S "CFE_ES_NOT_IMPLEMENTED";
    S "CFE_FS_BAD_ARGUMENT";
    S "CFE_FS_INVALID_PATH";
    S "CFE_FS_FNAME_TOO_LONG";
    S "CFE_FS_NOT_IMPLEMENTED";
    S "CFE_MSG_WRONG_MSG_TYPE";
    S "CFE_SB_TIME_OUT";
    S "CFE_SB_NO_MESSAGE";
    S "CFE_SB_BAD_ARGUMENT";
    S "CFE_SB_MAX_PIPES_MET";
    S "CFE_SB_PIPE_CR_ERR";
    S "CFE_SB_PIPE_RD_ERR";
    S "CFE_SB_MSG_TOO_BIG";
    S "CFE_SB_BUF_ALOC_ERR";
    S "CFE_SB_MAX_MSGS_MET";
    S "CFE_SB_MAX_DESTS_MET";
    S "CFE_SB_INTERNAL_ERR";
    S "CFE_SB_WRONG_MSG_TYPE";
    S "CFE_SB_BUFFER_INVALID";
    S "CFE_SB_NOT_IMPLEMENTED";
    S "CFE_TBL_ERR_INVALID_HANDLE";
    S "CFE_TBL_ERR_INVALID_NAME";
    S "CFE_TBL_ERR_INVALID_SIZE";
    S "CFE_TBL_INFO_UPDATE_PENDING";
    S "CFE_TBL_ERR_NEVER_LOADED";
    S "CFE_TBL_ERR_REGISTRY_FULL";
    S "CFE_TBL_WARN_DUPLICATE";
    S "CFE_TBL_ERR_NO_ACCESS";
    S "CFE_TBL_ERR_UNREGISTERED";
    S "CFE_TBL_ERR_HANDLES_FULL";
    S "CFE_TBL_ERR_DUPLICATE_DIFF_SIZE";
    S "CFE_TBL_ERR_DUPLICATE_NOT_OWNED";
    S "CFE_TBL_INFO_UPDATED";
    S "CFE_TBL_ERR_NO_BUFFER_AVAIL";
    S "CFE_TBL_ERR_DUMP_ONLY";
    S "CFE_TBL_ERR_ILLEGAL_SRC_TYPE";
    S "CFE_TBL_ERR_LOAD_IN_PROGRESS";
    S "CFE_TBL_ERR_FILE_TOO_LARGE";
    S "CFE_TBL_WARN_SHORT_FILE";
    S "CFE_TBL_ERR_BAD_CONTENT_ID";
    S "CFE_TBL_INFO_NO_UPDATE_PENDING";
    S "CFE_TBL_INFO_TABLE_LOCKED";
    S "CFE_TBL_INFO_VALIDATION_PENDING";
    S "CFE_TBL_INFO_NO_VALIDATION_PENDING";
    S "CFE_TBL_ERR_BAD_SUBTYPE_ID";
    S "CFE_TBL_ERR_FILE_SIZE_INCONSISTENT";
    S "CFE_TBL_ERR_NO_STD_HEADER";
    S "CFE_TBL_ERR_NO_TBL_HEADER";
    S "CFE_TBL_ERR_FILENAME_TOO_LONG";
    S "CFE_TBL_ERR_FILE_FOR_WRONG_TABLE";
    S "CFE_TBL_ERR_LOAD_INCOMPLETE";
    S "CFE_TBL_WARN_PARTIAL_LOAD";
    S "CFE_TBL_ERR_PARTIAL_LOAD";
    S "CFE_TBL_INFO_DUMP_PENDING";
    S "CFE_TBL_ERR_INVALID_OPTIONS";
    S "CFE_TBL_WARN_NOT_CRITICAL";
    S "CFE_TBL_INFO_RECOVERED_TBL";
    S "CFE_TBL_ERR_BAD_SPACECRAFT_ID";
    S "CFE_TBL_ERR_BAD_PROCESSOR_ID";
    S "CFE_TBL_MESSAGE_ERROR";
    S "CFE_TBL_ERR_SHORT_FILE";
    S "CFE_TBL_ERR_ACCESS";
    S "CFE_TBL_BAD_ARGUMENT";
    S "CFE_TBL_NOT_IMPLEMENTED";
    S "CFE_TIME_NOT_IMPLEMENTED";
    S "CFE_TIME_INTERNAL_ONLY";
    S "CFE_TIME_OUT_OF_RANGE";
    S "CFE_TIME_TOO_MANY_SYNCH_CALLBACKS";
    S "CFE_TIME_CALLBACK_NOT_REGISTERED";
    S "CFE_TIME_BAD_ARGUMENT";
    X "CFE_ES_TASK_STACK_ALLOCATE" "CFE_ES_StackPointer_t";
    X "CFE_RESOURCEID_RESERVED" "CFE_ResourceId_t";
    X "CFE_RESOURCEID_UNDEFINED" "CFE_ResourceId_t";
    X "CFE_SB_MSGID_RESERVED" "CFE_SB_MsgId_t";
    X "CFE_SB_INVALID_MSG_ID" "CFE_SB_MsgId_t";
    X "CFE_TBL_BAD_TABLE_HANDLE" "CFE_TBL_Handle_t";
    X "OS_OBJECT_ID_UNDEFINED" "osal_id_t";
    X_CFE_SB_DEFAULT_QOS_PRIORITY;
    X_CFE_SB_DEFAULT_QOS_RELIABILITY
  ].

End Api.

End CfsSys.

(** Both generations of the shim source, and every constant global the
    repository defines. *)
Definition shim_units : list (list fundef) :=
  [Shims.cfs_shims_c; CfsSys.Source.functions].

Definition constant_globals : list globdef :=
  CfsSys.Api.cfs_api_h ++ CfsSys.Source.globals.

(** ** The wrapped middleware

    cFE and OSAL are not part of the repository.  Everything the shim layer
    uses from them is collected here: the inline functions it calls (which
    may read and update middleware state, or have no defined result), the
    object-like macros it names as initialisers, and struct member access on
    the values of those macros. *)
Record middleware : Type := {
  val : Type;
  world : Type;
  mw_call : ident -> list val -> world -> option (val * world);
  mw_const : ident -> option val;
  mw_field : val -> ident -> option val
}.

(** ** Semantics of the generated C *)

Section Semantics.
Variable mw : middleware.

(** One call into the middleware: callee and actual arguments. *)
Definition event : Type := ident * list (val mw).

(** Computations thread the middleware state, may be undefined, and record
    the middleware calls they make. *)
Definition M (A : Type) : Type := world mw -> option (A * world mw * list event).

Definition ret {A} (a : A) : M A := fun w => Some (a, w, []).

Definition fail {A} : M A := fun _ => None.

Definition bind {A B} (m : M A) (k : A -> M B) : M B :=
  fun w =>
    match m w with
    | Some (a, w1, t1) =>
        match k a w1 with
        | Some (b, w2, t2) => Some (b, w2, t1 ++ t2)
        | None => None
        end
    | None => None
    end.

Definition lift {A} (o : option A) : M A :=
  fun w => match o with Some a => Some (a, w, []) | None => None end.

Definition extcall (f : ident) (vs : list (val mw)) : M (val mw) :=
  fun w =>
    match mw_call mw f vs w with
    | Some (v, w') => Some (v, w', [(f, vs)])
    | None => None
    end.

Definition env : Type := list (ident * val mw).

Fixpoint lookup (rho : env) (x : ident) : option (val mw) :=
  match rho with
  | [] => None
  | (y, v) :: rho' => if String.eqb x y then Some v else lookup rho' x
  end.

(** An identifier is a parameter of the enclosing function or else a
    middleware macro. *)
Definition eval_var (rho : env) (x : ident) : option (val mw) :=
  match lookup rho x with
  | Some v => Some v
  | None => mw_const mw x
  end.

Fixpoint eval_expr (rho : env) (e : expr) : M (val mw) :=
  match e with
  | Evar x => lift (eval_var rho x)
  | Efield e1 fld => bind (eval_expr rho e1) (fun v => lift (mw_field mw v fld))
  | Ecall f args =>
      bind ((fix eval_args (es : list expr) : M (list (val mw)) :=
               match es with
               | [] => ret []
               | e1 :: es' =>
                   bind (eval_expr rho e1) (fun v =>
                   bind (eval_args es') (fun vs => ret (v :: vs)))
               end) args)
           (extcall f)
  end.

Definition exec_stmt (rho : env) (s : stmt) : M (val mw) :=
  match s with
  | Sreturn e => eval_expr rho e
  end.

Fixpoint bind_params (ps : list (ctype * ident)) (vs : list (val mw)) : option env :=
  match ps, vs with
  | [], [] => Some []
  | (_, x) :: ps', v :: vs' =>
      match bind_params ps' vs' with
      | Some rho => Some ((x, v) :: rho)
      | None => None
      end
  | _, _ => None
  end.

(** Calling a defined function with the given actual arguments. *)
Definition call_fun (fd : fundef) (args : list (val mw)) : M (val mw) :=
  match bind_params (fn_params fd) args with
  | Some rho => exec_stmt rho (fn_body fd)
  | None => fail
  end.

Definition find_fun (tu : list fundef) (name : ident) : option fundef :=
  find (fun fd => String.eqb (fn_name fd) name) tu.

(** Calling an exported symbol of a translation unit by name. *)
Definition invoke (tu : list fundef) (name : ident) (args : list (val mw)) : M (val mw) :=
  match find_fun tu name with
  | Some fd => call_fun fd args
  | None => fail
  end.

(** Initialisers of file-scope objects are constant expressions. *)
Fixpoint eval_init (e : expr) : option (val mw) :=
  match e with
  | Evar x => mw_const mw x
  | Efield e1 fld =>
      match eval_init e1 with
      | Some v => mw_field mw v fld
      | None => None
      end
  | Ecall _ _ => None
  end.

Definition global_value (g : globdef) : option (val mw) := eval_init (gv_init g).

(** What a caller observes of a computation. *)
Definition returned {A} (r : option (A * world mw * list event)) : option A :=
  match r with Some (a, _, _) => Some a | None => None end.

Definition final_state {A} (r : option (A * world mw * list event)) : option (world mw) :=
  match r with Some (_, w, _) => Some w | None => None end.

Definition calls_made {A} (r : option (A * world mw * list event)) : option (list event) :=
  match r with Some (_, _, t) => Some t | None => None end.

End Semantics.

Arguments ret {mw A} a.
Arguments fail {mw A}.
Arguments bind {mw A B} m k.
Arguments returned {mw A} r.
Arguments final_state {mw A} r.
Arguments calls_made {mw A} r.

(** ** Static views of the generated declarations *)

(** Identifiers an expression mentions. *)
Fixpoint expr_vars (e : expr) : list ident :=
  match e with
  | Evar x => [x]
  | Efield e1 _ => expr_vars e1
  | Ecall _ args => flat_map expr_vars args
  end.

(** Functions an expression calls. *)
Fixpoint expr_callees (e : expr) : list ident :=
  match e with
  | Evar _ => []
  | Efield e1 _ => expr_callees e1
  | Ecall f args => f :: flat_map expr_callees args
  end.

Definition body_expr (s : stmt) : expr :=
  match s with Sreturn e => e end.

Definition param_names (fd : fundef) : list ident := map snd (fn_params fd).

Definition arity (fd : fundef) : nat := length (fn_params fd).

Definition mem_string (x : ident) (l : list ident) : bool :=
  existsb (String.eqb x) l.

(** The body reads nothing but the function's own parameters. *)
Definition reads_only_params (fd : fundef) : bool :=
  forallb (fun x => mem_string x (param_names fd)) (expr_vars (body_expr (fn_body fd))).

(** No call in the body resolves to a function of the translation unit. *)
Definition calls_only_external (tu : list fundef) (fd : fundef) : bool :=
  forallb (fun f => negb (mem_string f (map fn_name tu)))
          (expr_callees (body_expr (fn_body fd))).

(** The function a forwarding body calls. *)
Definition callee (fd : fundef) : ident :=
  hd "" (expr_callees (body_expr (fn_body fd))).

(** Counting exported names. *)
Fixpoint distinct (l : list ident) : list ident :=
  match l with
  | [] => []
  | x :: l' => if mem_string x l' then distinct l' else x :: distinct l'
  end.

Definition shim_names : list ident :=
  distinct (map fn_name (concat shim_units)).

Definition constant_names (pre : string) : list ident :=
  distinct (filter (String.prefix pre) (map gv_name constant_globals)).

(** [n] is within fifteen percent of [target]. *)
Definition roughly (n target : nat) : bool :=
  Nat.leb ((Nat.max n target - Nat.min n target) * 100) (15 * target).

(** ** A small middleware to run the shims against

    Values are integers, the state counts the calls served so far, every
    function adds up its arguments, and a macro names the length of its own
    spelling. *)
Definition toy : middleware := {|
  val := Z;
  world := nat;
  mw_call := fun _ args n => Some (fold_right Z.add 0%Z args, Datatypes.S n);
  mw_const := fun x => Some (Z.of_nat (String.length x));
  mw_field := fun v fld => Some (v + Z.of_nat (String.length fld))%Z
|}.

(** ** Vocabulary of the properties *)

(** [fd] is the expansion of one of the function-generating macros, of the
    given argument count. *)
Inductive instance_of : nat -> fundef -> Prop :=
| inst_top_shim1 rettype fname arg1type :
    instance_of 1 (Shims.shim1 rettype fname arg1type)
| inst_top_shim2 rettype fname arg1type arg2type :
    instance_of 2 (Shims.shim2 rettype fname arg1type arg2type)
| inst_sys_shim1 rettype fname arg1type arg1 :
    instance_of 1 (CfsSys.Source.shim1 rettype fname arg1type arg1)
| inst_sys_shim2 rettype fname arg1type arg1 arg2type arg2 :
    instance_of 2 (CfsSys.Source.shim2 rettype fname arg1type arg1 arg2type arg2).

(** Parameter names are pairwise different (C rejects anything else). *)
Fixpoint distinct_names (l : list ident) : bool :=
  match l with
  | [] => true
  | x :: l' => negb (mem_string x l') && distinct_names l'
  end.

(** Calling [fd] is calling the middleware's [F] on the same arguments. *)
Definition forwards_to (mw : middleware) (fd : fundef) (F : ident) : Prop :=
  forall args w,
    length args = arity fd ->
    call_fun mw fd args w = extcall mw F args w.

(** Two definitions that cannot be told apart by a caller. *)
Definition same_shim (mw : middleware) (fd1 fd2 : fundef) : Prop :=
  fn_name fd1 = fn_name fd2 /\
  fn_sig fd1 = fn_sig fd2 /\
  forall args w, call_fun mw fd1 args w = call_fun mw fd2 args w.

(** The middleware's results are a function of the arguments alone. *)
Definition pure_middleware (mw : middleware) : Prop :=
  forall f args w1 w2,
    option_map fst (mw_call mw f args w1) = option_map fst (mw_call mw f args w2).

(** [g] is the expansion of one of the constant-capture macros. *)
Inductive capture_instance : globdef -> Prop :=
| inst_S IDENT : capture_instance (CfsSys.Api.S IDENT)
| inst_X IDENT TYPE : capture_instance (CfsSys.Api.X IDENT TYPE).

(** The globals that are written out by hand. *)
Definition handwritten_globals : list globdef :=
  [CfsSys.Api.X_CFE_SB_DEFAULT_QOS_PRIORITY;
   CfsSys.Api.X_CFE_SB_DEFAULT_QOS_RELIABILITY;
   CfsSys.Source.X_CFE_ES_TASK_STACK_ALLOCATE].

(** [g] re-exports the middleware macro [IDENT]: it is initialised with
    exactly that identifier. *)
Definition captures (g : globdef) (IDENT : ident) : Prop :=
  gv_init g = Evar IDENT.

(** [g] re-exports member [fld] of the middleware macro [IDENT]. *)
Definition captures_field (g : globdef) (IDENT fld : ident) : Prop :=
  gv_init g = Efield (Evar IDENT) fld.

(** The two globals of cfs-api.h that re-export a member of a middleware
    constant, each with the member it takes (lines 192-193). *)
Definition qos_members : list (ident * ident) :=
  [("X_CFE_SB_DEFAULT_QOS_PRIORITY", "Priority");
   ("X_CFE_SB_DEFAULT_QOS_RELIABILITY", "Reliability")].

(** The type written beside each constant where [X] is instantiated
    (cfs-api.h lines 184-190); cfs-shims.c line 27 repeats the first. *)
Definition X_declared_types : list (ident * ctype) :=
  [("CFE_ES_TASK_STACK_ALLOCATE", "CFE_ES_StackPointer_t");
   ("CFE_RESOURCEID_RESERVED", "CFE_ResourceId_t");
   ("CFE_RESOURCEID_UNDEFINED", "CFE_ResourceId_t");
   ("CFE_SB_MSGID_RESERVED", "CFE_SB_MsgId_t");
   ("CFE_SB_INVALID_MSG_ID", "CFE_SB_MsgId_t");
   ("CFE_TBL_BAD_TABLE_HANDLE", "CFE_TBL_Handle_t");
   ("OS_OBJECT_ID_UNDEFINED", "osal_id_t")].

(** What holds of a constant global [g], by the form of its name. *)
Definition materialized (mw : middleware) (g : globdef) : Prop :=
  (forall IDENT,
      gv_name g = paste "S_" IDENT ->
      gv_type g = "CFE_Status_t" /\
      captures g IDENT /\
      global_value mw g = mw_const mw IDENT) /\
  (forall IDENT,
      gv_name g = paste "X_" IDENT ->
      (forall fld, ~ In (gv_name g, fld) qos_members) ->
      In (IDENT, gv_type g) X_declared_types /\
      captures g IDENT /\
      global_value mw g = mw_const mw IDENT) /\
  (forall fld,
      In (gv_name g, fld) qos_members ->
      gv_type g = "uint8" /\
      captures_field g "CFE_SB_DEFAULT_QOS" fld /\
      global_value mw g
      = match mw_const mw "CFE_SB_DEFAULT_QOS" with
        | Some v => mw_field mw v fld
        | None => None
        end /\
      forall IDENT, ~ captures g IDENT) /\
  (String.prefix "S_" (gv_name g) || String.prefix "X_" (gv_name g) = true).

(** ** Code that is linked against a shim source

    A client of the shim layer (the generated binding) calls [SHIM_F] where
    C code would call the inline [F].  A call resolves to the shim source's
    definition when the source has one of that name, and to the middleware
    otherwise. *)

Section Client.
Variable mw : middleware.
Variable tu : list fundef.

Definition linked_call (f : ident) (vs : list (val mw)) : M mw (val mw) :=
  match find_fun tu f with
  | Some fd => call_fun mw fd vs
  | None => extcall mw f vs
  end.

Fixpoint eval_client (rho : env mw) (e : expr) : M mw (val mw) :=
  match e with
  | Evar x => lift mw (eval_var mw rho x)
  | Efield e1 fld => bind (eval_client rho e1) (fun v => lift mw (mw_field mw v fld))
  | Ecall f args =>
      bind ((fix eval_args (es : list expr) : M mw (list (val mw)) :=
               match es with
               | [] => ret []
               | e1 :: es' =>
                   bind (eval_client rho e1) (fun v =>
                   bind (eval_args es') (fun vs => ret (v :: vs)))
               end) args)
           (linked_call f)
  end.

End Client.

(** Evaluating an argument list from left to right with a given evaluator;
    this is the loop inside [eval_expr] and [eval_client]. *)
Definition eval_list (mw : middleware) (ev : expr -> M mw (val mw))
  : list expr -> M mw (list (val mw)) :=
  fix eval_args (es : list expr) : M mw (list (val mw)) :=
    match es with
    | [] => ret []
    | e1 :: es' =>
        bind (ev e1) (fun v =>
        bind (eval_args es') (fun vs => ret (v :: vs)))
    end.

(** The name left when the [SHIM_] prefix is taken off. *)
Definition strip_shim (f : ident) : ident :=
  if String.prefix "SHIM_" f
  then String.substring 5 (String.length f - 5) f
  else f.

(** The function a call to [f] ends up in, for a client of [tu]. *)
Definition resolve (tu : list fundef) (f : ident) : ident :=
  match find_fun tu f with
  | Some _ => strip_shim f
  | None => f
  end.

(** The client expression with every call to a shim replaced by a call to
    the function the shim wraps. *)
Fixpoint unshim (tu : list fundef) (e : expr) : expr :=
  match e with
  | Evar x => Evar x
  | Efield e1 fld => Efield (unshim tu e1) fld
  | Ecall f args => Ecall (resolve tu f) (map (unshim tu) args)
  end.

(** Every call to a function of [tu] passes as many arguments as the
    function has parameters. *)
Fixpoint arities_respected (tu : list fundef) (e : expr) : bool :=
  match e with
  | Evar _ => true
  | Efield e1 _ => arities_respected tu e1
  | Ecall f args =>
      match find_fun tu f with
      | Some fd => Nat.eqb (length args) (arity fd)
      | None => true
      end
      && forallb (arities_respected tu) args
  end.

(** C does not say in which order the arguments of a call, or the parts of
    any expression, are evaluated; only that function calls do not overlap.
    So a client expression is evaluated by small steps, each at any place
    that is ready: a variable is read, a member is taken of a value, or a
    call all of whose arguments are values is made.  A [term] is an
    expression some parts of which have already become values. *)

Section Unsequenced.
Variable mw : middleware.

#[warnings="-register-all"]
Inductive term : Type :=
| Tval (v : val mw)
| Tvar (x : ident)
| Tfield (t : term) (fld : ident)
| Tcall (f : ident) (args : list term).

Fixpoint inject (e : expr) : term :=
  match e with
  | Evar x => Tvar x
  | Efield e1 fld => Tfield (inject e1) fld
  | Ecall f args => Tcall f (map inject args)
  end.

Variable tu : list fundef.
Variable rho : env mw.

(** One step, with the middleware calls it makes. *)
Inductive step : term -> world mw -> list (event mw) -> term -> world mw -> Prop :=
| step_var x v w :
    eval_var mw rho x = Some v ->
    step (Tvar x) w [] (Tval v) w
| step_field v fld u w :
    mw_field mw v fld = Some u ->
    step (Tfield (Tval v) fld) w [] (Tval u) w
| step_in_field t fld w ev t' w' :
    step t w ev t' w' ->
    step (Tfield t fld) w ev (Tfield t' fld) w'
| step_in_arg f l1 a l2 w ev a' w' :
    step a w ev a' w' ->
    step (Tcall f (l1 ++ a :: l2)) w ev (Tcall f (l1 ++ a' :: l2)) w'
| step_call f vs w v w' ev :
    linked_call mw tu f vs w = Some (v, w', ev) ->
    step (Tcall f (map Tval vs)) w ev (Tval v) w'.

(** Some sequence of steps takes the term to a value, leaving the given
    state, with the given middleware calls made in that order. *)
Inductive reaches : term -> world mw -> val mw -> world mw -> list (event mw) -> Prop :=
| reaches_val v w :
    reaches (Tval v) w v w []
| reaches_step t w ev t1 w1 v w2 tr :
    step t w ev t1 w1 ->
    reaches t1 w1 v w2 tr ->
    reaches t w v w2 (ev ++ tr).

End Unsequenced.

Arguments Tval {mw} v.
Arguments Tvar {mw} x.
Arguments Tfield {mw} t fld.
Arguments Tcall {mw} f args.

(** [unshim] and [arities_respected], on terms. *)
Fixpoint unshim_term {mw : middleware} (tu : list fundef) (t : term mw) : term mw :=
  match t with
  | Tval v => Tval v
  | Tvar x => Tvar x
  | Tfield t1 fld => Tfield (unshim_term tu t1) fld
  | Tcall f args => Tcall (resolve tu f) (map (unshim_term tu) args)
  end.

Fixpoint term_arities {mw : middleware} (tu : list fundef) (t : term mw) : bool :=
  match t with
  | Tval _ => true
  | Tvar _ => true
  | Tfield t1 _ => term_arities tu t1
  | Tcall f args =>
      match find_fun tu f with
      | Some fd => Nat.eqb (length args) (arity fd)
      | None => true
      end
      && forallb (term_arities tu) args
  end.

(** Looking a global up by name. *)
Definition find_global (gs : list globdef) (name : ident) : option globdef :=
  find (fun g => String.eqb (gv_name g) name) gs.

(** Everything src/cfs-sys/cfs-shims.c defines, by name. *)
Definition cfs_sys_source_names : list ident :=
  map fn_name CfsSys.Source.functions ++ map gv_name CfsSys.Source.globals.

(** The wrapped conversions that come in pairs: to a plain number and
    back. *)
Definition conversion_pairs : list (ident * ident) :=
  [("CFE_ResourceId_ToInteger", "CFE_ResourceId_FromInteger");
   ("CFE_SB_MsgIdToValue", "CFE_SB_ValueToMsgId");
   ("OS_ObjectIdToInteger", "OS_ObjectIdFromInteger")].

(** A client expression that converts [x] and converts it back, through
    the shims. *)
Definition there_and_back (to from : ident) : expr :=
  Ecall (paste "SHIM_" from) [Ecall (paste "SHIM_" to) [Evar "x"]].

(** * Properties *)

(** ** How a macro-generated function runs *)

Section Forwarding.
Variable mw : middleware.

Lemma call_top_shim1 rettype fname arg1type a w :
  call_fun mw (Shims.shim1 rettype fname arg1type) [a] w = extcall mw fname [a] w.
Proof.
  unfold call_fun, extcall, bind; simpl.
  unfold bind, lift, ret, extcall; simpl.
  destruct (mw_call mw fname [a] w) as [[v w']|]; reflexivity.
Qed.

Lemma call_top_shim2 rettype fname arg1type arg2type a b w :
  call_fun mw (Shims.shim2 rettype fname arg1type arg2type) [a; b] w
  = extcall mw fname [a; b] w.
Proof.
  unfold call_fun, extcall, bind; simpl.
  unfold bind, lift, ret, extcall; simpl.
  destruct (mw_call mw fname [a; b] w) as [[v w']|]; reflexivity.
Qed.

Lemma call_sys_shim1 rettype fname arg1type arg1 a w :
  call_fun mw (CfsSys.Source.shim1 rettype fname arg1type arg1) [a] w
  = extcall mw fname [a] w.
Proof.
  unfold call_fun, extcall, bind; simpl.
  unfold bind, lift, ret, extcall, eval_var; simpl.
  rewrite String.eqb_refl.
  destruct (mw_call mw fname [a] w) as [[v w']|]; reflexivity.
Qed.

Lemma call_sys_shim2 rettype fname arg1type arg1 arg2type arg2 a b w :
  String.eqb arg2 arg1 = false ->
  call_fun mw (CfsSys.Source.shim2 rettype fname arg1type arg1 arg2type arg2) [a; b] w
  = extcall mw fname [a; b] w.
Proof.
  intros Hne.
  unfold call_fun, extcall, bind; simpl.
  unfold bind, lift, ret, extcall, eval_var; simpl.
  rewrite !String.eqb_refl, Hne.
  destruct (mw_call mw fname [a; b] w) as [[v w']|]; reflexivity.
Qed.

End Forwarding.

(** ** Every function of the shim sources is a macro instance *)

Lemma top_instances :
  Forall (fun fd => instance_of (arity fd) fd) Shims.cfs_shims_c.
Proof.
  unfold Shims.cfs_shims_c.
  repeat (apply Forall_cons; [ constructor | ]).
  apply Forall_nil.
Qed.

Lemma sys_instances :
  Forall (fun fd => instance_of (arity fd) fd) CfsSys.Source.functions.
Proof.
  unfold CfsSys.Source.functions, CfsSys.cfs_shims_h.
  repeat (apply Forall_cons; [ constructor | ]).
  apply Forall_nil.
Qed.

Lemma shim_unit_cases (tu : list fundef) :
  In tu shim_units -> tu = Shims.cfs_shims_c \/ tu = CfsSys.Source.functions.
Proof.
  intros [H | [H | []]]; subst; auto.
Qed.

Lemma exported_instance tu fd :
  In tu shim_units -> In fd tu -> instance_of (arity fd) fd.
Proof.
  intros Htu Hfd.
  destruct (shim_unit_cases tu Htu); subst tu.
  - exact (proj1 (Forall_forall _ _) top_instances fd Hfd).
  - exact (proj1 (Forall_forall _ _) sys_instances fd Hfd).
Qed.

(** Facts decided by running a checker over a translation unit. *)
Lemma checked_on_units (check : list fundef -> fundef -> bool) :
  forallb (fun tu => forallb (check tu) tu) shim_units = true ->
  forall tu fd, In tu shim_units -> In fd tu -> check tu fd = true.
Proof.
  intros H tu fd Htu Hfd.
  rewrite forallb_forall in H.
  specialize (H tu Htu).
  rewrite forallb_forall in H.
  exact (H fd Hfd).
Qed.

Lemma exported_distinct_params tu fd :
  In tu shim_units -> In fd tu -> distinct_names (param_names fd) = true.
Proof.
  apply (checked_on_units (fun _ fd => distinct_names (param_names fd))).
  vm_compute. reflexivity.
Qed.

Lemma instance_arity n fd : instance_of n fd -> arity fd = n.
Proof. destruct 1; reflexivity. Qed.

Lemma paste_inj (p a b : string) : paste p a = paste p b -> a = b.
Proof.
  unfold paste. induction p as [|c p IH]; simpl; intros H.
  - exact H.
  - injection H as H. auto.
Qed.

Lemma mem_string_In (x : ident) (l : list ident) :
  mem_string x l = true <-> In x l.
Proof.
  unfold mem_string. rewrite existsb_exists. split.
  - intros [y [Hy He]]. apply String.eqb_eq in He. subst. exact Hy.
  - intros H. exists x. split; [exact H | apply String.eqb_refl].
Qed.

(** ** Calling an exported function by name *)

Lemma find_fun_exported tu fd :
  distinct_names (map fn_name tu) = true ->
  In fd tu ->
  find_fun tu (fn_name fd) = Some fd.
Proof.
  unfold find_fun.
  induction tu as [|fd0 tu IH]; simpl; intros Hd Hin.
  - contradiction.
  - apply andb_prop in Hd. destruct Hd as [Hfresh Hd].
    destruct Hin as [-> | Hin].
    + rewrite String.eqb_refl. reflexivity.
    + case_eq (String.eqb (fn_name fd0) (fn_name fd)); intros He.
      * apply String.eqb_eq in He.
        apply negb_true_iff in Hfresh.
        assert (Hm : mem_string (fn_name fd0) (map fn_name tu) = true).
        { apply mem_string_In. rewrite He. apply in_map. exact Hin. }
        congruence.
      * apply IH; assumption.
Qed.

Lemma unit_names_distinct tu :
  In tu shim_units -> distinct_names (map fn_name tu) = true.
Proof.
  intros Htu.
  destruct (shim_unit_cases tu Htu); subst tu; vm_compute; reflexivity.
Qed.

Lemma invoke_exported mw tu fd args w :
  In tu shim_units -> In fd tu ->
  invoke mw tu (fn_name fd) args w = call_fun mw fd args w.
Proof.
  intros Htu Hfd. unfold invoke.
  rewrite (find_fun_exported tu fd (unit_names_distinct tu Htu) Hfd).
  reflexivity.
Qed.

(** ** A macro instance forwards to the function it names *)

Lemma instance_forwards mw n fd :
  instance_of n fd ->
  distinct_names (param_names fd) = true ->
  exists F, fn_name fd = paste "SHIM_" F /\ forwards_to mw fd F.
Proof.
  intros Hi Hd.
  destruct Hi as [r f t | r f t1 t2 | r f t x | r f t1 x1 t2 x2];
    exists f; (split; [reflexivity | ]); intros args w Hlen.
  - destruct args as [|a [|b l]]; try discriminate Hlen.
    apply call_top_shim1.
  - destruct args as [|a [|b [|c l]]]; try discriminate Hlen.
    apply call_top_shim2.
  - destruct args as [|a [|b l]]; try discriminate Hlen.
    apply call_sys_shim1.
  - destruct args as [|a [|b [|c l]]]; try discriminate Hlen.
    apply call_sys_shim2.
    unfold param_names in Hd. simpl in Hd.
    rewrite orb_false_r, andb_true_r in Hd.
    apply negb_true_iff in Hd.
    rewrite String.eqb_sym. exact Hd.
Qed.

Lemma exported_forwards mw tu fd F :
  In tu shim_units -> In fd tu ->
  fn_name fd = paste "SHIM_" F ->
  forwards_to mw fd F.
Proof.
  intros Htu Hfd Hname.
  destruct (instance_forwards mw (arity fd) fd
              (exported_instance tu fd Htu Hfd)
              (exported_distinct_params tu fd Htu Hfd)) as [F' [Hn' Hf]].
  rewrite Hname in Hn'. apply paste_inj in Hn'. subst F'. exact Hf.
Qed.

Lemma invoke_shim mw tu fd F args w :
  In tu shim_units -> In fd tu ->
  fn_name fd = paste "SHIM_" F ->
  length args = arity fd ->
  invoke mw tu (fn_name fd) args w = extcall mw F args w.
Proof.
  intros Htu Hfd Hname Hlen.
  rewrite (invoke_exported mw tu fd args w Htu Hfd).
  apply (exported_forwards mw tu fd F Htu Hfd Hname). exact Hlen.
Qed.

Lemma returned_extcall mw F args w :
  returned (extcall mw F args w) = option_map fst (mw_call mw F args w).
Proof.
  unfold extcall. destruct (mw_call mw F args w) as [[v w']|]; reflexivity.
Qed.

(** The concrete call used to exercise the statements below:
    [SHIM_OS_TimeAdd(3, 4)] of src/cfs-shims.c. *)
Lemma OS_TimeAdd_exported :
  In (Shims.shim2 "OS_time_t" "OS_TimeAdd" "OS_time_t" "OS_time_t") Shims.cfs_shims_c.
Proof.
  unfold Shims.cfs_shims_c.
  repeat (first [ left; reflexivity | right ]).
Defined.

Lemma top_unit : In Shims.cfs_shims_c shim_units.
Proof. left; reflexivity. Defined.

Lemma sys_unit : In CfsSys.Source.functions shim_units.
Proof. right; left; reflexivity. Defined.

(** ** C1 *)

(** C1. For every function exported by either shim source, named [SHIM_F],
    and every argument tuple of the function's arity, calling it returns
    exactly the value the middleware's [F] returns on the same arguments in
    the same order (and is undefined exactly when [F]'s call is). *)
Theorem shim_returns_wrapped_result :
  forall (mw : middleware) (tu : list fundef) (fd : fundef) (F : ident)
         (args : list (val mw)) (w : world mw),
    In tu shim_units ->
    In fd tu ->
    fn_name fd = paste "SHIM_" F ->
    length args = arity fd ->
    returned (invoke mw tu (fn_name fd) args w)
    = option_map fst (mw_call mw F args w).
Proof.
  intros mw tu fd F args w Htu Hfd Hname Hlen.
  rewrite (invoke_shim mw tu fd F args w Htu Hfd Hname Hlen).
  apply returned_extcall.
Qed.

Lemma shim_returns_wrapped_result_witness :
  In Shims.cfs_shims_c shim_units /\
  In (Shims.shim2 "OS_time_t" "OS_TimeAdd" "OS_time_t" "OS_time_t") Shims.cfs_shims_c /\
  returned (invoke toy Shims.cfs_shims_c "SHIM_OS_TimeAdd" [3%Z; 4%Z] 0)
  = option_map fst (mw_call toy "OS_TimeAdd" [3%Z; 4%Z] 0).
Proof.
  split; [exact top_unit | split; [exact OS_TimeAdd_exported | ]].
  apply (shim_returns_wrapped_result toy Shims.cfs_shims_c
           (Shims.shim2 "OS_time_t" "OS_TimeAdd" "OS_time_t" "OS_time_t")
           "OS_TimeAdd" [3%Z; 4%Z] 0).
  - exact top_unit.
  - exact OS_TimeAdd_exported.
  - reflexivity.
  - reflexivity.
Defined.

(** ** The constant re-exports (C3, C6, C10) *)

Lemma constant_shapes :
  Forall (fun g => capture_instance g \/ In g handwritten_globals) constant_globals.
Proof.
  unfold constant_globals, CfsSys.Api.cfs_api_h, CfsSys.Source.globals.
  cbn [app].
  repeat (apply Forall_cons;
          [ first [ left; constructor | right; simpl; tauto ] | ]).
  apply Forall_nil.
Qed.

Lemma constant_shape g :
  In g constant_globals -> capture_instance g \/ In g handwritten_globals.
Proof. exact (proj1 (Forall_forall _ _) constant_shapes g). Qed.

Lemma capture_instance_const g : capture_instance g -> gv_const g = true.
Proof. destruct 1; reflexivity. Qed.

Lemma capture_instance_init g :
  capture_instance g -> exists IDENT, gv_init g = Evar IDENT.
Proof. destruct 1 as [IDENT | IDENT TYPE]; exists IDENT; reflexivity. Qed.

Lemma handwritten_not_captured g :
  In g handwritten_globals -> ~ capture_instance g.
Proof.
  intros [<- | [<- | [<- | []]]] Hc.
  - destruct (capture_instance_init _ Hc) as [IDENT H]. discriminate H.
  - destruct (capture_instance_init _ Hc) as [IDENT H]. discriminate H.
  - apply capture_instance_const in Hc. discriminate Hc.
Qed.

Lemma handwritten_are_constants g :
  In g handwritten_globals -> In g constant_globals.
Proof.
  intros Hg. unfold constant_globals. apply in_or_app.
  destruct Hg as [<- | [<- | [<- | []]]].
  - left. unfold CfsSys.Api.cfs_api_h.
    repeat (first [ left; reflexivity | right ]).
  - left. unfold CfsSys.Api.cfs_api_h.
    repeat (first [ left; reflexivity | right ]).
  - right. left. reflexivity.
Qed.

Lemma captured_value mw g IDENT :
  captures g IDENT -> global_value mw g = mw_const mw IDENT.
Proof. unfold captures, global_value. intros ->. reflexivity. Qed.

Lemma captured_field_value mw g IDENT fld :
  captures_field g IDENT fld ->
  global_value mw g
  = match mw_const mw IDENT with Some v => mw_field mw v fld | None => None end.
Proof. unfold captures_field, global_value. intros ->. reflexivity. Qed.

Lemma QOS_PRIORITY_is_constant :
  In CfsSys.Api.X_CFE_SB_DEFAULT_QOS_PRIORITY constant_globals.
Proof. apply handwritten_are_constants. left. reflexivity. Defined.

Lemma S_SUCCESS_is_constant :
  In (CfsSys.Api.S "CFE_SUCCESS") constant_globals.
Proof.
  unfold constant_globals. apply in_or_app. left.
  unfold CfsSys.Api.cfs_api_h.
  repeat (first [ left; reflexivity | right ]).
Defined.

(** C3 as stated fails at the global [X_CFE_SB_DEFAULT_QOS_PRIORITY]: it is
    a re-exported constant named [X_IDENT] with
    [IDENT = CFE_SB_DEFAULT_QOS_PRIORITY], yet it is not initialised with
    [IDENT] (it holds a member of [CFE_SB_DEFAULT_QOS]), and on the sample
    middleware its value differs from that of [IDENT]. *)
Lemma X_global_not_initialised_with_IDENT :
  ~ (In CfsSys.Api.X_CFE_SB_DEFAULT_QOS_PRIORITY constant_globals ->
     gv_name CfsSys.Api.X_CFE_SB_DEFAULT_QOS_PRIORITY
     = paste "X_" "CFE_SB_DEFAULT_QOS_PRIORITY" ->
     captures CfsSys.Api.X_CFE_SB_DEFAULT_QOS_PRIORITY "CFE_SB_DEFAULT_QOS_PRIORITY" \/
     global_value toy CfsSys.Api.X_CFE_SB_DEFAULT_QOS_PRIORITY
     = mw_const toy "CFE_SB_DEFAULT_QOS_PRIORITY").
Proof.
  intros H.
  destruct (H QOS_PRIORITY_is_constant eq_refl) as [Hc | Hv].
  - discriminate Hc.
  - vm_compute in Hv. discriminate Hv.
Qed.

Lemma S_materialized mw IDENT : materialized mw (CfsSys.Api.S IDENT).
Proof.
  unfold materialized. split; [ | split; [ | split]].
  - intros I H. apply paste_inj in H. subst I. repeat split.
  - intros I H. discriminate H.
  - intros fld [H | [H | []]]; discriminate H.
  - destruct IDENT; reflexivity.
Qed.

Lemma X_materialized mw (c : bool) IDENT TYPE :
  In (IDENT, TYPE) X_declared_types ->
  mem_string (paste "X_" IDENT) (map fst qos_members) = false ->
  materialized mw (mkglob c TYPE (paste "X_" IDENT) (Evar IDENT)).
Proof.
  intros Htab Hq. unfold materialized. split; [ | split; [ | split]].
  - intros I H. discriminate H.
  - intros I H _. apply paste_inj in H. subst I. repeat split. exact Htab.
  - intros fld Hin. exfalso.
    assert (Hm : mem_string (paste "X_" IDENT) (map fst qos_members) = true).
    { apply mem_string_In. exact (in_map fst _ _ Hin). }
    cbn [gv_name] in Hm. congruence.
  - destruct IDENT; reflexivity.
Qed.

Lemma member_materialized mw name fld :
  In (name, fld) qos_members ->
  materialized mw (mkglob true "uint8" name (Efield (Evar "CFE_SB_DEFAULT_QOS") fld)).
Proof.
  intros Hin. unfold materialized. split; [ | split; [ | split]].
  - intros I H. cbn [gv_name] in H. subst name.
    destruct Hin as [Hin | [Hin | []]]; discriminate Hin.
  - intros I _ Hno. exfalso. exact (Hno fld Hin).
  - intros fld' Hin'. cbn [gv_name] in Hin'.
    assert (fld' = fld) as ->.
    { destruct Hin as [Hin | [Hin | []]];
        destruct Hin' as [Hin' | [Hin' | []]]; congruence. }
    repeat split. intros I H. discriminate H.
  - destruct Hin as [Hin | [Hin | []]]; injection Hin as <- _; reflexivity.
Qed.

Lemma constants_all_materialized mw :
  Forall (materialized mw) constant_globals.
Proof.
  unfold constant_globals, CfsSys.Api.cfs_api_h, CfsSys.Source.globals.
  cbn [app].
  repeat (apply Forall_cons;
          [ first [ apply S_materialized
                  | apply X_materialized;
                    [ repeat (first [ left; reflexivity | right ]) | reflexivity ]
                  | apply member_materialized;
                    repeat (first [ left; reflexivity | right ]) ] | ]).
  apply Forall_nil.
Qed.

(** C3, amended.  Every re-exported constant is a global whose declared
    type is correct and whose value is the wrapped constant's.  A global
    named [S_IDENT] has type [CFE_Status_t], is initialised with [IDENT]
    and has [IDENT]'s value.  A global named [X_IDENT], other than the two
    QoS ones, has the type that cfs-api.h writes beside [IDENT], is
    initialised with [IDENT] and has [IDENT]'s value.  The globals
    [X_CFE_SB_DEFAULT_QOS_PRIORITY] and [X_CFE_SB_DEFAULT_QOS_RELIABILITY],
    which both exist, have type [uint8], are initialised with the
    [Priority] and the [Reliability] member of [CFE_SB_DEFAULT_QOS] and
    hold that member's value; they are initialised with no identifier at
    all.  Every constant global's name starts with [S_] or with [X_]. *)
Theorem constants_materialized :
  forall (mw : middleware) (g : globdef),
    In g constant_globals ->
    (forall IDENT,
        gv_name g = paste "S_" IDENT ->
        gv_type g = "CFE_Status_t" /\
        captures g IDENT /\
        global_value mw g = mw_const mw IDENT) /\
    (forall IDENT,
        gv_name g = paste "X_" IDENT ->
        (forall fld, ~ In (gv_name g, fld) qos_members) ->
        In (IDENT, gv_type g) X_declared_types /\
        captures g IDENT /\
        global_value mw g = mw_const mw IDENT) /\
    (forall fld,
        In (gv_name g, fld) qos_members ->
        gv_type g = "uint8" /\
        captures_field g "CFE_SB_DEFAULT_QOS" fld /\
        global_value mw g
        = match mw_const mw "CFE_SB_DEFAULT_QOS" with
          | Some v => mw_field mw v fld
          | None => None
          end /\
        forall IDENT, ~ captures g IDENT) /\
    (String.prefix "S_" (gv_name g) || String.prefix "X_" (gv_name g) = true) /\
    Forall (fun nf => exists h, In h constant_globals /\ gv_name h = fst nf)
           qos_members.
Proof.
  intros mw g Hg.
  pose proof (proj1 (Forall_forall _ _) (constants_all_materialized mw) g Hg) as H.
  destruct H as [HS [HX [HQ Hpre]]].
  split; [exact HS | ].
  split; [exact HX | ].
  split; [exact HQ | ].
  split; [exact Hpre | ].
  repeat constructor.
  - exists CfsSys.Api.X_CFE_SB_DEFAULT_QOS_PRIORITY.
    split; [apply handwritten_are_constants; left; reflexivity | reflexivity].
  - exists CfsSys.Api.X_CFE_SB_DEFAULT_QOS_RELIABILITY.
    split; [apply handwritten_are_constants; right; left; reflexivity | reflexivity].
Qed.

Lemma constants_materialized_witness :
  In CfsSys.Api.X_CFE_SB_DEFAULT_QOS_PRIORITY constant_globals /\
  In ("X_CFE_SB_DEFAULT_QOS_PRIORITY", "Priority") qos_members /\
  gv_type CfsSys.Api.X_CFE_SB_DEFAULT_QOS_PRIORITY = "uint8" /\
  captures_field CfsSys.Api.X_CFE_SB_DEFAULT_QOS_PRIORITY "CFE_SB_DEFAULT_QOS" "Priority" /\
  global_value toy CfsSys.Api.X_CFE_SB_DEFAULT_QOS_PRIORITY = Some 26%Z /\
  In (CfsSys.Api.S "CFE_SUCCESS") constant_globals /\
  "S_CFE_SUCCESS" = paste "S_" "CFE_SUCCESS" /\
  gv_type (CfsSys.Api.S "CFE_SUCCESS") = "CFE_Status_t" /\
  global_value toy (CfsSys.Api.S "CFE_SUCCESS") = mw_const toy "CFE_SUCCESS".
Proof.
  split; [exact QOS_PRIORITY_is_constant | ].
  split; [left; reflexivity | ].
  destruct (constants_materialized toy CfsSys.Api.X_CFE_SB_DEFAULT_QOS_PRIORITY
              QOS_PRIORITY_is_constant) as [_ [_ [HQ _]]].
  destruct (HQ "Priority" (or_introl eq_refl)) as [Ht [Hc [Hv _]]].
  split; [exact Ht | ].
  split; [exact Hc | ].
  split; [exact Hv | ].
  split; [exact S_SUCCESS_is_constant | ].
  split; [reflexivity | ].
  destruct (constants_materialized toy (CfsSys.Api.S "CFE_SUCCESS")
              S_SUCCESS_is_constant) as [HS _].
  destruct (HS "CFE_SUCCESS" eq_refl) as [Ht' [_ Hv']].
  split; [exact Ht' | exact Hv'].
Defined.

(** C6 as stated fails at the global that src/cfs-sys/cfs-shims.c writes
    out by hand: it is a constant re-export, and no instantiation of [S] or
    of [X] produces it. *)
Lemma handwritten_global_is_no_macro_instance :
  ~ (In CfsSys.Source.X_CFE_ES_TASK_STACK_ALLOCATE constant_globals ->
     capture_instance CfsSys.Source.X_CFE_ES_TASK_STACK_ALLOCATE).
Proof.
  intros H.
  apply (handwritten_not_captured CfsSys.Source.X_CFE_ES_TASK_STACK_ALLOCATE).
  - right; right; left. reflexivity.
  - apply H. apply handwritten_are_constants. right; right; left. reflexivity.
Qed.

(** C6, amended.  Every function of either shim source is an instantiation
    of [shim1] or of [shim2] and so takes exactly one or exactly two
    arguments.  Every constant re-export is an instantiation of [S] or of
    [X], except three globals that are written out directly:
    [X_CFE_SB_DEFAULT_QOS_PRIORITY] and [X_CFE_SB_DEFAULT_QOS_RELIABILITY]
    in cfs-api.h, and [X_CFE_ES_TASK_STACK_ALLOCATE] in cfs-shims.c. *)
Theorem generated_by_macro_templates :
  forall (tu : list fundef) (fd : fundef) (g : globdef),
    In tu shim_units ->
    In fd tu ->
    In g constant_globals ->
    (instance_of 1 fd /\ arity fd = 1 \/ instance_of 2 fd /\ arity fd = 2) /\
    (capture_instance g \/ In g handwritten_globals) /\
    Forall (fun h => In h constant_globals /\ ~ capture_instance h) handwritten_globals.
Proof.
  intros tu fd g Htu Hfd Hg.
  split; [ | split].
  - pose proof (exported_instance tu fd Htu Hfd) as Hi.
    destruct Hi; [left | right | left | right]; split;
      first [ constructor | reflexivity ].
  - exact (constant_shape g Hg).
  - apply Forall_forall. intros h Hh. split.
    + exact (handwritten_are_constants h Hh).
    + exact (handwritten_not_captured h Hh).
Qed.

Lemma generated_by_macro_templates_witness :
  In Shims.cfs_shims_c shim_units /\
  In (Shims.shim2 "OS_time_t" "OS_TimeAdd" "OS_time_t" "OS_time_t") Shims.cfs_shims_c /\
  In (CfsSys.Api.S "CFE_SUCCESS") constant_globals /\
  (instance_of 1 (Shims.shim2 "OS_time_t" "OS_TimeAdd" "OS_time_t" "OS_time_t") /\
   arity (Shims.shim2 "OS_time_t" "OS_TimeAdd" "OS_time_t" "OS_time_t") = 1 \/
   instance_of 2 (Shims.shim2 "OS_time_t" "OS_TimeAdd" "OS_time_t" "OS_time_t") /\
   arity (Shims.shim2 "OS_time_t" "OS_TimeAdd" "OS_time_t" "OS_time_t") = 2) /\
  (capture_instance (CfsSys.Api.S "CFE_SUCCESS") \/
   In (CfsSys.Api.S "CFE_SUCCESS") handwritten_globals).
Proof.
  split; [exact top_unit | ].
  split; [exact OS_TimeAdd_exported | ].
  split; [exact S_SUCCESS_is_constant | ].
  destruct (generated_by_macro_templates Shims.cfs_shims_c
              (Shims.shim2 "OS_time_t" "OS_TimeAdd" "OS_time_t" "OS_time_t")
              (CfsSys.Api.S "CFE_SUCCESS")
              top_unit OS_TimeAdd_exported S_SUCCESS_is_constant) as [Hf [Hg _]].
  split; [exact Hf | exact Hg].
Defined.

(** C10.  Exactly two globals are named [X_CFE_ES_TASK_STACK_ALLOCATE]: the
    [X] instantiation of cfs-api.h and the hand-written definition of
    cfs-shims.c.  Both have type [CFE_ES_StackPointer_t] and are initialised
    with [CFE_ES_TASK_STACK_ALLOCATE], so both hold that constant's value. *)
Theorem stack_allocate_materialized_twice :
  forall (mw : middleware),
    filter (fun g => String.eqb (gv_name g) "X_CFE_ES_TASK_STACK_ALLOCATE")
           constant_globals
    = [CfsSys.Api.X "CFE_ES_TASK_STACK_ALLOCATE" "CFE_ES_StackPointer_t";
       CfsSys.Source.X_CFE_ES_TASK_STACK_ALLOCATE] /\
    In (CfsSys.Api.X "CFE_ES_TASK_STACK_ALLOCATE" "CFE_ES_StackPointer_t")
       CfsSys.Api.cfs_api_h /\
    capture_instance (CfsSys.Api.X "CFE_ES_TASK_STACK_ALLOCATE" "CFE_ES_StackPointer_t") /\
    In CfsSys.Source.X_CFE_ES_TASK_STACK_ALLOCATE CfsSys.Source.globals /\
    ~ capture_instance CfsSys.Source.X_CFE_ES_TASK_STACK_ALLOCATE /\
    Forall (fun g =>
              gv_name g = paste "X_" "CFE_ES_TASK_STACK_ALLOCATE" /\
              gv_type g = "CFE_ES_StackPointer_t" /\
              captures g "CFE_ES_TASK_STACK_ALLOCATE" /\
              global_value mw g = mw_const mw "CFE_ES_TASK_STACK_ALLOCATE")
           [CfsSys.Api.X "CFE_ES_TASK_STACK_ALLOCATE" "CFE_ES_StackPointer_t";
            CfsSys.Source.X_CFE_ES_TASK_STACK_ALLOCATE].
Proof.
  intros mw.
  split; [vm_compute; reflexivity | ].
  split; [unfold CfsSys.Api.cfs_api_h; repeat (first [ left; reflexivity | right ]) | ].
  split; [constructor | ].
  split; [left; reflexivity | ].
  split; [apply handwritten_not_captured; right; right; left; reflexivity | ].
  repeat constructor.
Qed.

(** ** C7 *)

(** C7.  Across both shim sources there are 26 distinct [SHIM_] functions,
    and the repository defines 137 distinct [S_] and 9 distinct [X_]
    constant globals, 146 together (147 definitions, one name being defined
    twice); 26 is within fifteen percent of 30 and 146 within fifteen
    percent of 140. *)
Theorem exported_surface_size :
  length shim_names = 26 /\
  forallb (String.prefix "SHIM_") shim_names = true /\
  length (constant_names "S_") = 137 /\
  length (constant_names "X_") = 9 /\
  length (constant_names "S_") + length (constant_names "X_")
  = length (distinct (map gv_name constant_globals)) /\
  length constant_globals = 147 /\
  roughly (length shim_names) 30 = true /\
  roughly (length (constant_names "S_") + length (constant_names "X_")) 140 = true.
Proof.
  vm_compute. repeat (split; [reflexivity | ]). reflexivity.
Qed.

(** ** C8 *)

Lemma bind_params_arity mw ps (args : list (val mw)) :
  length args <> length ps -> bind_params mw ps args = None.
Proof.
  revert args. induction ps as [|[t x] ps IH]; intros [|a args]; simpl; intros H;
    try reflexivity; try (exfalso; apply H; reflexivity).
  rewrite IH; [reflexivity | ]. intros E. apply H. rewrite E. reflexivity.
Qed.

Lemma call_fun_arity mw fd args w :
  length args <> arity fd -> call_fun mw fd args w = None.
Proof.
  intros H. unfold call_fun. rewrite (bind_params_arity mw _ _ H). reflexivity.
Qed.

Lemma same_top_sys_shim1 mw rettype fname arg1type arg1 :
  same_shim mw (Shims.shim1 rettype fname arg1type)
            (CfsSys.Source.shim1 rettype fname arg1type arg1).
Proof.
  split; [reflexivity | split; [reflexivity | ]].
  intros args w.
  destruct (Nat.eq_dec (length args) 1) as [E | E].
  - destruct args as [|a [|b l]]; try discriminate E.
    rewrite call_top_shim1, call_sys_shim1. reflexivity.
  - rewrite !call_fun_arity by exact E. reflexivity.
Qed.

Lemma same_top_sys_shim2 mw rettype fname arg1type arg1 arg2type arg2 :
  String.eqb arg2 arg1 = false ->
  same_shim mw (Shims.shim2 rettype fname arg1type arg2type)
            (CfsSys.Source.shim2 rettype fname arg1type arg1 arg2type arg2).
Proof.
  intros Hne.
  split; [reflexivity | split; [reflexivity | ]].
  intros args w.
  destruct (Nat.eq_dec (length args) 2) as [E | E].
  - destruct args as [|a [|b [|c l]]]; try discriminate E.
    rewrite call_top_shim2, (call_sys_shim2 mw _ _ _ _ _ _ _ _ _ Hne). reflexivity.
  - rewrite !call_fun_arity by exact E. reflexivity.
Qed.

Lemma sources_pairwise_same mw :
  Forall2 (same_shim mw) Shims.cfs_shims_c CfsSys.Source.functions.
Proof.
  unfold Shims.cfs_shims_c, CfsSys.Source.functions, CfsSys.cfs_shims_h.
  repeat (apply Forall2_cons;
          [ first [ apply same_top_sys_shim1
                  | apply same_top_sys_shim2; reflexivity ] | ]).
  apply Forall2_nil.
Qed.

Lemma invoke_pairwise_same mw tu1 tu2 :
  Forall2 (same_shim mw) tu1 tu2 ->
  forall name args w, invoke mw tu1 name args w = invoke mw tu2 name args w.
Proof.
  intros H name args w. unfold invoke, find_fun.
  induction H as [|fd1 fd2 tu1 tu2 [Hn [_ Hc]] _ IH]; simpl.
  - reflexivity.
  - rewrite <- Hn.
    destruct (String.eqb (fn_name fd1) name); [apply Hc | exact IH].
Qed.

(** C8.  src/cfs-shims.c and src/cfs-sys/cfs-shims.c each define 26
    functions, with the same names and the same signatures in the same
    order, and whatever symbol is called with whatever arguments, the two
    behave alike: same result, same effect on the middleware, same
    middleware calls, and undefined together. *)
Theorem two_sources_agree :
  forall (mw : middleware),
    length Shims.cfs_shims_c = 26 /\
    length CfsSys.Source.functions = 26 /\
    map fn_name Shims.cfs_shims_c = map fn_name CfsSys.Source.functions /\
    map fn_sig Shims.cfs_shims_c = map fn_sig CfsSys.Source.functions /\
    distinct (map fn_name Shims.cfs_shims_c) = map fn_name Shims.cfs_shims_c /\
    (forall (name : ident) (args : list (val mw)) (w : world mw),
        invoke mw Shims.cfs_shims_c name args w
        = invoke mw CfsSys.Source.functions name args w).
Proof.
  intros mw.
  split; [reflexivity | ].
  split; [reflexivity | ].
  split; [vm_compute; reflexivity | ].
  split; [vm_compute; reflexivity | ].
  split; [vm_compute; reflexivity | ].
  apply invoke_pairwise_same. apply sources_pairwise_same.
Qed.

(** ** C9 *)

Lemma pure_middleware_toy : pure_middleware toy.
Proof. intros f args w1 w2. reflexivity. Defined.

(** C9.  Over a middleware whose results are a function of the arguments
    alone, so is every shim's: called with the same arguments in any two
    middleware states, a shim returns the same result. *)
Theorem shim_deterministic :
  forall (mw : middleware) (tu : list fundef) (fd : fundef)
         (args : list (val mw)) (w1 w2 : world mw),
    In tu shim_units ->
    In fd tu ->
    pure_middleware mw ->
    returned (invoke mw tu (fn_name fd) args w1)
    = returned (invoke mw tu (fn_name fd) args w2).
Proof.
  intros mw tu fd args w1 w2 Htu Hfd Hpure.
  rewrite !(invoke_exported mw tu fd args _ Htu Hfd).
  destruct (Nat.eq_dec (length args) (arity fd)) as [E | E].
  - destruct (instance_forwards mw (arity fd) fd
                (exported_instance tu fd Htu Hfd)
                (exported_distinct_params tu fd Htu Hfd)) as [F [_ Hf]].
    rewrite !(Hf args _ E), !returned_extcall. apply Hpure.
  - rewrite !call_fun_arity by exact E. reflexivity.
Qed.

Lemma MsgId_Equal_exported :
  In (CfsSys.Source.shim2 "bool" "CFE_SB_MsgId_Equal"
        "CFE_SB_MsgId_t" "MsgId1" "CFE_SB_MsgId_t" "MsgId2")
     CfsSys.Source.functions.
Proof.
  unfold CfsSys.Source.functions, CfsSys.cfs_shims_h.
  repeat (first [ left; reflexivity | right ]).
Defined.

Lemma shim_deterministic_witness :
  In CfsSys.Source.functions shim_units /\
  In (CfsSys.Source.shim2 "bool" "CFE_SB_MsgId_Equal"
        "CFE_SB_MsgId_t" "MsgId1" "CFE_SB_MsgId_t" "MsgId2")
     CfsSys.Source.functions /\
  pure_middleware toy /\
  returned (invoke toy CfsSys.Source.functions "SHIM_CFE_SB_MsgId_Equal" [3%Z; 4%Z] 0)
  = returned (invoke toy CfsSys.Source.functions "SHIM_CFE_SB_MsgId_Equal" [3%Z; 4%Z] 5).
Proof.
  split; [exact sys_unit | ].
  split; [exact MsgId_Equal_exported | ].
  split; [exact pure_middleware_toy | ].
  exact (shim_deterministic toy CfsSys.Source.functions
           (CfsSys.Source.shim2 "bool" "CFE_SB_MsgId_Equal"
              "CFE_SB_MsgId_t" "MsgId1" "CFE_SB_MsgId_t" "MsgId2")
           [3%Z; 4%Z] 0 5 sys_unit MsgId_Equal_exported pure_middleware_toy).
Defined.

(** ** C4 and C5 *)

Lemma instance_body n fd :
  instance_of n fd ->
  fn_name fd = paste "SHIM_" (callee fd) /\
  fn_body fd = Sreturn (Ecall (callee fd) (map Evar (param_names fd))).
Proof. destruct 1; split; reflexivity. Qed.

Lemma exported_body tu fd F :
  In tu shim_units -> In fd tu ->
  fn_name fd = paste "SHIM_" F ->
  fn_body fd = Sreturn (Ecall F (map Evar (param_names fd))).
Proof.
  intros Htu Hfd Hname.
  destruct (instance_body _ fd (exported_instance tu fd Htu Hfd)) as [Hn Hb].
  rewrite Hname in Hn. apply paste_inj in Hn. subst F. exact Hb.
Qed.

Lemma exported_reads_only_params tu fd :
  In tu shim_units -> In fd tu -> reads_only_params fd = true.
Proof.
  apply (checked_on_units (fun _ fd => reads_only_params fd)).
  vm_compute. reflexivity.
Qed.

Lemma exported_calls_only_external tu fd :
  In tu shim_units -> In fd tu -> calls_only_external tu fd = true.
Proof.
  apply (checked_on_units calls_only_external).
  vm_compute. reflexivity.
Qed.

Lemma extcall_twice mw F args w :
  bind (extcall mw F args) (fun _ => extcall mw F args) w
  = match mw_call mw F args w with
    | Some (_, w1) =>
        match mw_call mw F args w1 with
        | Some (v2, w2) => Some (v2, w2, [(F, args); (F, args)])
        | None => None
        end
    | None => None
    end.
Proof.
  unfold bind, extcall.
  destruct (mw_call mw F args w) as [[v1 w1]|]; [ | reflexivity].
  destruct (mw_call mw F args w1) as [[v2 w2]|]; reflexivity.
Qed.

(** C4.  The body of every shim [SHIM_F] is the single statement
    [return F(p1, ..., pn);] over its own parameters: it mentions nothing
    but those parameters and calls nothing the shim source defines.  Run on
    arguments of its arity it makes exactly one middleware call, to [F], on
    the unmodified argument list; it is undefined only when that call is;
    the middleware state afterwards is the one that call leaves.  Run twice
    in a row on the same arguments it calls [F] twice, the second time in
    the state the first call left. *)
Theorem shim_only_calls_through :
  forall (mw : middleware) (tu : list fundef) (fd : fundef) (F : ident)
         (args : list (val mw)) (w : world mw),
    In tu shim_units ->
    In fd tu ->
    fn_name fd = paste "SHIM_" F ->
    length args = arity fd ->
    fn_body fd = Sreturn (Ecall F (map Evar (param_names fd))) /\
    reads_only_params fd = true /\
    calls_only_external tu fd = true /\
    invoke mw tu (fn_name fd) args w
    = match mw_call mw F args w with
      | Some (v, w') => Some (v, w', [(F, args)])
      | None => None
      end /\
    bind (invoke mw tu (fn_name fd) args) (fun _ => invoke mw tu (fn_name fd) args) w
    = match mw_call mw F args w with
      | Some (_, w1) =>
          match mw_call mw F args w1 with
          | Some (v2, w2) => Some (v2, w2, [(F, args); (F, args)])
          | None => None
          end
      | None => None
      end.
Proof.
  intros mw tu fd F args w Htu Hfd Hname Hlen.
  split; [exact (exported_body tu fd F Htu Hfd Hname) | ].
  split; [exact (exported_reads_only_params tu fd Htu Hfd) | ].
  split; [exact (exported_calls_only_external tu fd Htu Hfd) | ].
  split.
  - exact (invoke_shim mw tu fd F args w Htu Hfd Hname Hlen).
  - rewrite <- extcall_twice. unfold bind.
    rewrite (invoke_shim mw tu fd F args w Htu Hfd Hname Hlen).
    destruct (extcall mw F args w) as [[[v1 w1] t1]|]; [ | reflexivity].
    rewrite (invoke_shim mw tu fd F args w1 Htu Hfd Hname Hlen).
    reflexivity.
Qed.

Lemma shim_only_calls_through_witness :
  In Shims.cfs_shims_c shim_units /\
  In (Shims.shim2 "OS_time_t" "OS_TimeAdd" "OS_time_t" "OS_time_t") Shims.cfs_shims_c /\
  "SHIM_OS_TimeAdd" = paste "SHIM_" "OS_TimeAdd" /\
  length [3%Z; 4%Z] = arity (Shims.shim2 "OS_time_t" "OS_TimeAdd" "OS_time_t" "OS_time_t") /\
  invoke toy Shims.cfs_shims_c "SHIM_OS_TimeAdd" [3%Z; 4%Z] 0
  = Some (7%Z, 1, [("OS_TimeAdd", [3%Z; 4%Z])]) /\
  bind (invoke toy Shims.cfs_shims_c "SHIM_OS_TimeAdd" [3%Z; 4%Z])
       (fun _ => invoke toy Shims.cfs_shims_c "SHIM_OS_TimeAdd" [3%Z; 4%Z]) 0
  = Some (7%Z, 2, [("OS_TimeAdd", [3%Z; 4%Z]); ("OS_TimeAdd", [3%Z; 4%Z])]).
Proof.
  split; [exact top_unit | ].
  split; [exact OS_TimeAdd_exported | ].
  split; [reflexivity | ].
  split; [reflexivity | ].
  destruct (shim_only_calls_through toy Shims.cfs_shims_c
              (Shims.shim2 "OS_time_t" "OS_TimeAdd" "OS_time_t" "OS_time_t")
              "OS_TimeAdd" [3%Z; 4%Z] 0
              top_unit OS_TimeAdd_exported eq_refl eq_refl)
    as [_ [_ [_ [H1 H2]]]].
  split; [exact H1 | exact H2].
Defined.

(** C5.  For a shim [SHIM_F] run on arguments of its arity, and any way of
    telling error values from others: the shim is undefined exactly when
    [F]'s call is; whatever value [F] returns, an error value in
    particular, is the value the shim returns, with the state [F] left; the
    shim's result is an error exactly when [F]'s is; and the body is the
    one statement [return F(p1, ..., pn);], with no branch in it. *)
Theorem shim_passes_errors_through :
  forall (mw : middleware) (is_error : val mw -> bool)
         (tu : list fundef) (fd : fundef) (F : ident)
         (args : list (val mw)) (w : world mw),
    In tu shim_units ->
    In fd tu ->
    fn_name fd = paste "SHIM_" F ->
    length args = arity fd ->
    (invoke mw tu (fn_name fd) args w = None <-> mw_call mw F args w = None) /\
    (forall v w',
        mw_call mw F args w = Some (v, w') ->
        is_error v = true ->
        returned (invoke mw tu (fn_name fd) args w) = Some v /\
        final_state (invoke mw tu (fn_name fd) args w) = Some w') /\
    option_map is_error (returned (invoke mw tu (fn_name fd) args w))
    = option_map (fun r => is_error (fst r)) (mw_call mw F args w) /\
    fn_body fd = Sreturn (Ecall F (map Evar (param_names fd))).
Proof.
  intros mw is_error tu fd F args w Htu Hfd Hname Hlen.
  rewrite (invoke_shim mw tu fd F args w Htu Hfd Hname Hlen).
  unfold extcall.
  split; [ | split; [ | split]].
  - destruct (mw_call mw F args w) as [[v w']|]; split; intros H;
      first [ discriminate H | reflexivity ].
  - intros v w' Hcall _. rewrite Hcall. split; reflexivity.
  - destruct (mw_call mw F args w) as [[v w']|]; reflexivity.
  - exact (exported_body tu fd F Htu Hfd Hname).
Qed.

Lemma shim_passes_errors_through_witness :
  In Shims.cfs_shims_c shim_units /\
  In (Shims.shim2 "OS_time_t" "OS_TimeAdd" "OS_time_t" "OS_time_t") Shims.cfs_shims_c /\
  "SHIM_OS_TimeAdd" = paste "SHIM_" "OS_TimeAdd" /\
  length [3%Z; (-4)%Z] = arity (Shims.shim2 "OS_time_t" "OS_TimeAdd" "OS_time_t" "OS_time_t") /\
  mw_call toy "OS_TimeAdd" [3%Z; (-4)%Z] 0 = Some ((-1)%Z, 1) /\
  Z.ltb (-1) 0 = true /\
  returned (invoke toy Shims.cfs_shims_c "SHIM_OS_TimeAdd" [3%Z; (-4)%Z] 0)
  = Some (-1)%Z.
Proof.
  split; [exact top_unit | ].
  split; [exact OS_TimeAdd_exported | ].
  split; [reflexivity | ].
  split; [reflexivity | ].
  split; [reflexivity | ].
  split; [reflexivity | ].
  destruct (shim_passes_errors_through toy (fun v : Z => Z.ltb v 0) Shims.cfs_shims_c
              (Shims.shim2 "OS_time_t" "OS_TimeAdd" "OS_time_t" "OS_time_t")
              "OS_TimeAdd" [3%Z; (-4)%Z] 0
              top_unit OS_TimeAdd_exported eq_refl eq_refl)
    as [_ [H _]].
  exact (proj1 (H (-1)%Z 1 eq_refl eq_refl)).
Defined.

(** * Further properties of the shim layer *)

(** ** The two headers *)

(** X1.  The hand-written prototypes of src/cfs-shims.h are, parameter names
    included, what src/cfs-sys/cfs-shims.h generates when it is included
    without [shim1]/[shim2] defined, and they are the prototypes of the
    functions src/cfs-sys/cfs-shims.c defines.  The definitions of
    src/cfs-shims.c differ from them in the parameter names only, which
    are [arg1] and [arg2] there. *)
Theorem handwritten_header_is_generated_header :
  Shims.cfs_shims_h = CfsSys.Header.prototypes /\
  Shims.cfs_shims_h = map fn_proto CfsSys.Source.functions /\
  Forall2 (fun p fd =>
             pr_name p = fn_name fd /\
             pr_return p = fn_return fd /\
             map fst (pr_params p) = map fst (fn_params fd) /\
             param_names fd = firstn (arity fd) ["arg1"; "arg2"])
          Shims.cfs_shims_h Shims.cfs_shims_c.
Proof.
  split; [reflexivity | split; [reflexivity | ]].
  unfold Shims.cfs_shims_h, Shims.cfs_shims_c.
  repeat (apply Forall2_cons; [ repeat split | ]).
  apply Forall2_nil.
Qed.

(** ** Symbol names *)

Lemma instance_name n fd :
  instance_of n fd -> fn_name fd = paste "SHIM_" (callee fd).
Proof. destruct 1; reflexivity. Qed.

Lemma capture_name g :
  capture_instance g ->
  exists IDENT,
    gv_init g = Evar IDENT /\
    (gv_name g = paste "S_" IDENT \/ gv_name g = paste "X_" IDENT).
Proof.
  destruct 1 as [IDENT | IDENT TYPE]; exists IDENT; split;
    first [ reflexivity | left; reflexivity | right; reflexivity ].
Qed.

(** X2.  Whatever the arguments of the macros: a function generated by [shim1]
    or [shim2] never has the name of a global generated by [S] or [X]; two
    generated functions of the same name wrap the same function; two
    generated globals of the same name capture the same constant (in
    particular no [S_] name is an [X_] name). *)
Theorem macro_namespaces :
  forall (n m : nat) (fd fd' : fundef) (g g' : globdef),
    instance_of n fd ->
    instance_of m fd' ->
    capture_instance g ->
    capture_instance g' ->
    fn_name fd <> gv_name g /\
    (fn_name fd = fn_name fd' -> callee fd = callee fd') /\
    (gv_name g = gv_name g' -> gv_init g = gv_init g').
Proof.
  intros n m fd fd' g g' Hfd Hfd' Hg Hg'.
  pose proof (instance_name n fd Hfd) as Hn.
  pose proof (instance_name m fd' Hfd') as Hn'.
  destruct (capture_name g Hg) as [I [Hi Hgn]].
  destruct (capture_name g' Hg') as [J [Hj Hgn']].
  split; [ | split].
  - rewrite Hn. destruct Hgn as [-> | ->]; discriminate.
  - rewrite Hn, Hn'. intros H. exact (paste_inj _ _ _ H).
  - rewrite Hi, Hj.
    destruct Hgn as [-> | ->], Hgn' as [-> | ->]; intros H;
      first [ discriminate H | apply paste_inj in H; subst; reflexivity ].
Qed.

Lemma macro_namespaces_witness :
  instance_of 1 (Shims.shim1 "bool" "OS_ObjectIdDefined" "osal_id_t") /\
  instance_of 1 (CfsSys.Source.shim1 "bool" "OS_ObjectIdDefined" "osal_id_t" "object_id") /\
  capture_instance (CfsSys.Api.S "CFE_SUCCESS") /\
  capture_instance (CfsSys.Api.X "OS_OBJECT_ID_UNDEFINED" "osal_id_t") /\
  "SHIM_OS_ObjectIdDefined" <> "S_CFE_SUCCESS" /\
  ("SHIM_OS_ObjectIdDefined" = "SHIM_OS_ObjectIdDefined" ->
   "OS_ObjectIdDefined" = "OS_ObjectIdDefined") /\
  ("S_CFE_SUCCESS" = "X_OS_OBJECT_ID_UNDEFINED" ->
   Evar "CFE_SUCCESS" = Evar "OS_OBJECT_ID_UNDEFINED").
Proof.
  split; [constructor | ].
  split; [constructor | ].
  split; [constructor | ].
  split; [constructor | ].
  exact (macro_namespaces 1 1
           (Shims.shim1 "bool" "OS_ObjectIdDefined" "osal_id_t")
           (CfsSys.Source.shim1 "bool" "OS_ObjectIdDefined" "osal_id_t" "object_id")
           (CfsSys.Api.S "CFE_SUCCESS")
           (CfsSys.Api.X "OS_OBJECT_ID_UNDEFINED" "osal_id_t")
           (inst_top_shim1 _ _ _) (inst_sys_shim1 _ _ _ _)
           (inst_S _) (inst_X _ _)).
Defined.

Lemma distinct_names_NoDup (l : list ident) :
  distinct_names l = true -> NoDup l.
Proof.
  induction l as [|x l IH]; simpl; intros H.
  - constructor.
  - apply andb_prop in H. destruct H as [Hx Hl].
    constructor; [ | auto].
    intros Hin. apply mem_string_In in Hin.
    rewrite Hin in Hx. discriminate Hx.
Qed.

Lemma find_global_defined gs g :
  distinct_names (map gv_name gs) = true ->
  In g gs ->
  find_global gs (gv_name g) = Some g.
Proof.
  unfold find_global.
  induction gs as [|g0 gs IH]; simpl; intros Hd Hin.
  - contradiction.
  - apply andb_prop in Hd. destruct Hd as [Hfresh Hd].
    destruct Hin as [-> | Hin].
    + rewrite String.eqb_refl. reflexivity.
    + case_eq (String.eqb (gv_name g0) (gv_name g)); intros He.
      * apply String.eqb_eq in He.
        apply negb_true_iff in Hfresh.
        assert (Hm : mem_string (gv_name g0) (map gv_name gs) = true).
        { apply mem_string_In. rewrite He. apply in_map. exact Hin. }
        congruence.
      * apply IH; assumption.
Qed.

Lemma S_SUCCESS_in_api : In (CfsSys.Api.S "CFE_SUCCESS") CfsSys.Api.cfs_api_h.
Proof.
  unfold CfsSys.Api.cfs_api_h.
  repeat (first [ left; reflexivity | right ]).
Defined.

(** X3.  No file defines a name twice: the globals of cfs-api.h have pairwise
    different names, so do the functions of each shim source, and so does
    everything src/cfs-sys/cfs-shims.c defines, functions and global
    together.  Hence looking a global of cfs-api.h up by its name finds
    that very definition. *)
Theorem names_defined_once :
  forall (g : globdef),
    In g CfsSys.Api.cfs_api_h ->
    find_global CfsSys.Api.cfs_api_h (gv_name g) = Some g /\
    NoDup (map gv_name CfsSys.Api.cfs_api_h) /\
    Forall (fun tu => NoDup (map fn_name tu)) shim_units /\
    NoDup cfs_sys_source_names.
Proof.
  intros g Hg.
  assert (Hapi : distinct_names (map gv_name CfsSys.Api.cfs_api_h) = true)
    by (vm_compute; reflexivity).
  split; [exact (find_global_defined _ g Hapi Hg) | ].
  split; [exact (distinct_names_NoDup _ Hapi) | ].
  split.
  - apply Forall_forall. intros tu Htu.
    apply distinct_names_NoDup. exact (unit_names_distinct tu Htu).
  - apply distinct_names_NoDup. vm_compute. reflexivity.
Qed.

Lemma names_defined_once_witness :
  In (CfsSys.Api.S "CFE_SUCCESS") CfsSys.Api.cfs_api_h /\
  find_global CfsSys.Api.cfs_api_h "S_CFE_SUCCESS" = Some (CfsSys.Api.S "CFE_SUCCESS").
Proof.
  split; [exact S_SUCCESS_in_api | ].
  exact (proj1 (names_defined_once (CfsSys.Api.S "CFE_SUCCESS") S_SUCCESS_in_api)).
Defined.

(** X4.  Every global of cfs-api.h is const-qualified; the global that
    src/cfs-sys/cfs-shims.c defines is not.  Its name,
    [X_CFE_ES_TASK_STACK_ALLOCATE], is the only one that cfs-api.h and
    cfs-shims.c both define, and the two definitions are the same except
    for that qualifier. *)
Theorem const_qualification :
  forallb gv_const CfsSys.Api.cfs_api_h = true /\
  map gv_const CfsSys.Source.globals = [false] /\
  filter (fun x => mem_string x cfs_sys_source_names)
         (map gv_name CfsSys.Api.cfs_api_h)
  = ["X_CFE_ES_TASK_STACK_ALLOCATE"] /\
  find_global CfsSys.Api.cfs_api_h "X_CFE_ES_TASK_STACK_ALLOCATE"
  = Some (mkglob true
                 (gv_type CfsSys.Source.X_CFE_ES_TASK_STACK_ALLOCATE)
                 (gv_name CfsSys.Source.X_CFE_ES_TASK_STACK_ALLOCATE)
                 (gv_init CfsSys.Source.X_CFE_ES_TASK_STACK_ALLOCATE)).
Proof.
  split; [vm_compute; reflexivity | ].
  split; [reflexivity | ].
  split; vm_compute; reflexivity.
Qed.

(** ** The macro templates themselves *)

Lemma instance_callee_forwards mw n fd :
  instance_of n fd ->
  distinct_names (param_names fd) = true ->
  forwards_to mw fd (callee fd).
Proof.
  intros Hi Hd.
  destruct (instance_forwards mw n fd Hi Hd) as [F [Hname Hf]].
  rewrite (instance_name n fd Hi) in Hname.
  apply paste_inj in Hname. rewrite Hname. exact Hf.
Qed.

(** X5.  Take any instantiation of [shim1] or [shim2], of either file,
    whose parameter names differ from one another and from the name of the
    function to call (so that, in the body, that name still means the
    middleware's function), and which spells that function's own types.
    The function it defines passes its arguments, as many as the macro's
    argument count, to the named function in one call and yields that
    call's outcome; given any other number of arguments it has no defined
    behaviour. *)
Theorem macro_template_forwards :
  forall (mw : middleware) (n : nat) (fd : fundef)
         (args : list (val mw)) (w : world mw),
    instance_of n fd ->
    distinct_names (param_names fd) = true ->
    mem_string (callee fd) (param_names fd) = false ->
    call_fun mw fd args w
    = if Nat.eqb (length args) n
      then match mw_call mw (callee fd) args w with
           | Some (v, w') => Some (v, w', [(callee fd, args)])
           | None => None
           end
      else None.
Proof.
  intros mw n fd args w Hi Hd _.
  pose proof (instance_arity n fd Hi) as Ha.
  destruct (Nat.eqb_spec (length args) n) as [E | E].
  - apply (instance_callee_forwards mw n fd Hi Hd). rewrite Ha. exact E.
  - apply call_fun_arity. rewrite Ha. exact E.
Qed.

Lemma macro_template_forwards_witness :
  instance_of 2 (CfsSys.Source.shim2 "int32" "OS_TimeCompare"
                   "OS_time_t" "lhs" "OS_time_t" "rhs") /\
  distinct_names ["lhs"; "rhs"] = true /\
  mem_string "OS_TimeCompare" ["lhs"; "rhs"] = false /\
  call_fun toy (CfsSys.Source.shim2 "int32" "OS_TimeCompare"
                  "OS_time_t" "lhs" "OS_time_t" "rhs") [10%Z; 20%Z] 0
  = Some (30%Z, 1, [("OS_TimeCompare", [10%Z; 20%Z])]) /\
  call_fun toy (CfsSys.Source.shim2 "int32" "OS_TimeCompare"
                  "OS_time_t" "lhs" "OS_time_t" "rhs") [10%Z] 0
  = None.
Proof.
  split; [constructor | ].
  split; [reflexivity | ].
  split; [reflexivity | ].
  split.
  - exact (macro_template_forwards toy 2
             (CfsSys.Source.shim2 "int32" "OS_TimeCompare"
                "OS_time_t" "lhs" "OS_time_t" "rhs")
             [10%Z; 20%Z] 0 (inst_sys_shim2 _ _ _ _ _ _) eq_refl eq_refl).
  - exact (macro_template_forwards toy 2
             (CfsSys.Source.shim2 "int32" "OS_TimeCompare"
                "OS_time_t" "lhs" "OS_time_t" "rhs")
             [10%Z] 0 (inst_sys_shim2 _ _ _ _ _ _) eq_refl eq_refl).
Defined.

(** ** When a call through a shim source is defined *)

Lemma find_fun_some tu name fd :
  find_fun tu name = Some fd -> In fd tu /\ fn_name fd = name.
Proof.
  unfold find_fun. intros H. apply find_some in H.
  destruct H as [Hin He]. apply String.eqb_eq in He. auto.
Qed.

(** X6.  A call into a shim source has a defined outcome only if the name called
    is [SHIM_F] for a function the source defines, the number of arguments
    is that function's parameter count, and the middleware's [F] is defined
    on those arguments.  A name outside the source, or a wrong number of
    arguments, gives nothing. *)
Theorem invoke_defined_only_for_shims :
  forall (mw : middleware) (tu : list fundef) (name : ident)
         (args : list (val mw)) (w : world mw),
    In tu shim_units ->
    invoke mw tu name args w <> None ->
    exists fd F,
      In fd tu /\
      fn_name fd = name /\
      name = paste "SHIM_" F /\
      length args = arity fd /\
      mw_call mw F args w <> None.
Proof.
  intros mw tu name args w Htu Hdef.
  unfold invoke in Hdef.
  case_eq (find_fun tu name); [intros fd Hfind | intros Hfind];
    rewrite Hfind in Hdef; [ | exfalso; apply Hdef; reflexivity].
  destruct (find_fun_some tu name fd Hfind) as [Hin Hname].
  pose proof (exported_instance tu fd Htu Hin) as Hi.
  pose proof (exported_distinct_params tu fd Htu Hin) as Hd.
  exists fd, (callee fd).
  split; [exact Hin | split; [exact Hname | ]].
  split; [rewrite <- Hname; exact (instance_name _ fd Hi) | ].
  destruct (Nat.eq_dec (length args) (arity fd)) as [E | E].
  - split; [exact E | ].
    rewrite (instance_callee_forwards mw _ fd Hi Hd args w E) in Hdef.
    unfold extcall in Hdef.
    destruct (mw_call mw (callee fd) args w) as [[v w']|];
      [discriminate | exfalso; apply Hdef; reflexivity].
  - exfalso. apply Hdef. apply call_fun_arity. exact E.
Qed.

Lemma invoke_defined_only_for_shims_witness :
  In Shims.cfs_shims_c shim_units /\
  invoke toy Shims.cfs_shims_c "SHIM_OS_TimeAdd" [3%Z; 4%Z] 0 <> None /\
  (exists fd F,
      In fd Shims.cfs_shims_c /\
      fn_name fd = "SHIM_OS_TimeAdd" /\
      "SHIM_OS_TimeAdd" = paste "SHIM_" F /\
      length [3%Z; 4%Z] = arity fd /\
      mw_call toy F [3%Z; 4%Z] 0 <> None) /\
  invoke toy Shims.cfs_shims_c "OS_TimeAdd" [3%Z; 4%Z] 0 = None /\
  invoke toy Shims.cfs_shims_c "SHIM_OS_TimeAdd" [3%Z] 0 = None.
Proof.
  split; [exact top_unit | ].
  split; [vm_compute; discriminate | ].
  split.
  - apply (invoke_defined_only_for_shims toy Shims.cfs_shims_c
             "SHIM_OS_TimeAdd" [3%Z; 4%Z] 0 top_unit).
    vm_compute. discriminate.
  - split; vm_compute; reflexivity.
Defined.

(** ** Clients of the shim layer *)

Lemma expr_nested_ind (P : expr -> Prop) :
  (forall x, P (Evar x)) ->
  (forall e fld, P e -> P (Efield e fld)) ->
  (forall f args, Forall P args -> P (Ecall f args)) ->
  forall e, P e.
Proof.
  intros Hvar Hfield Hcall.
  fix IH 1.
  intros [x | e fld | f args].
  - apply Hvar.
  - apply Hfield. apply IH.
  - apply Hcall. induction args as [|a args IHargs]; constructor.
    + apply IH.
    + exact IHargs.
Qed.

Lemma eval_expr_call mw rho f args :
  eval_expr mw rho (Ecall f args)
  = bind (eval_list mw (eval_expr mw rho) args) (extcall mw f).
Proof. reflexivity. Qed.

Lemma eval_client_call mw tu rho f args :
  eval_client mw tu rho (Ecall f args)
  = bind (eval_list mw (eval_client mw tu rho) args) (linked_call mw tu f).
Proof. reflexivity. Qed.

Lemma eval_list_cons mw ev e es :
  eval_list mw ev (e :: es)
  = bind (ev e) (fun v => bind (eval_list mw ev es) (fun vs => ret (v :: vs))).
Proof. reflexivity. Qed.

Lemma eval_list_length mw ev es w vs w' t :
  eval_list mw ev es w = Some (vs, w', t) -> length vs = length es.
Proof.
  revert w vs w' t.
  induction es as [|e es IH]; intros w vs w' t.
  - simpl. unfold ret. intros H. injection H as <- _ _. reflexivity.
  - rewrite eval_list_cons. unfold bind, ret.
    destruct (ev e w) as [[[v w1] t1]|]; [ | discriminate].
    case_eq (eval_list mw ev es w1); [intros [[vs1 w2] t2] Hl | intros Hl];
      [ | discriminate].
    intros H. injection H as <- _ _.
    simpl. f_equal. exact (IH w1 vs1 w2 t2 Hl).
Qed.

Lemma eval_list_ext mw ev1 ev2 es1 es2 :
  Forall2 (fun e1 e2 => forall w, ev1 e1 w = ev2 e2 w) es1 es2 ->
  forall w, eval_list mw ev1 es1 w = eval_list mw ev2 es2 w.
Proof.
  induction 1 as [|e1 e2 es1 es2 He _ IH]; intros w.
  - reflexivity.
  - rewrite !eval_list_cons. unfold bind, ret. rewrite He.
    destruct (ev2 e2 w) as [[[v w1] t1]|]; [ | reflexivity].
    rewrite IH. reflexivity.
Qed.

Lemma substring_all (s : string) : String.substring 0 (String.length s) s = s.
Proof. induction s as [|c s IH]; simpl; [reflexivity | rewrite IH; reflexivity]. Qed.

Lemma strip_shim_paste (F : ident) : strip_shim (paste "SHIM_" F) = F.
Proof.
  unfold strip_shim, paste. simpl.
  destruct F as [|c F]; simpl; [reflexivity | ].
  rewrite substring_all. reflexivity.
Qed.

Lemma linked_call_shim mw tu f fd vs w :
  In tu shim_units ->
  find_fun tu f = Some fd ->
  length vs = arity fd ->
  linked_call mw tu f vs w = extcall mw (resolve tu f) vs w.
Proof.
  intros Htu Hfind Hlen.
  unfold linked_call, resolve. rewrite Hfind.
  destruct (find_fun_some tu f fd Hfind) as [Hin Hname].
  pose proof (exported_instance tu fd Htu Hin) as Hi.
  rewrite <- Hname, (instance_name _ fd Hi), strip_shim_paste.
  apply (instance_callee_forwards mw _ fd Hi
           (exported_distinct_params tu fd Htu Hin)).
  exact Hlen.
Qed.

Lemma client_sees_middleware mw tu rho e :
  In tu shim_units ->
  arities_respected tu e = true ->
  forall w, eval_client mw tu rho e w = eval_expr mw rho (unshim tu e) w.
Proof.
  intros Htu.
  induction e as [x | e fld IH | f args IH] using expr_nested_ind; intros Hok w.
  - reflexivity.
  - simpl in Hok. simpl. unfold bind. rewrite (IH Hok). reflexivity.
  - simpl in Hok. apply andb_prop in Hok. destruct Hok as [Har Hargs].
    change (unshim tu (Ecall f args))
      with (Ecall (resolve tu f) (map (unshim tu) args)).
    rewrite eval_client_call, eval_expr_call.
    assert (Hl : forall w0,
               eval_list mw (eval_client mw tu rho) args w0
               = eval_list mw (eval_expr mw rho) (map (unshim tu) args) w0).
    { apply eval_list_ext.
      clear Har. induction args as [|a args IHargs]; simpl; constructor.
      - simpl in Hargs. apply andb_prop in Hargs.
        inversion IH; subst. apply H1. apply Hargs.
      - simpl in Hargs. apply andb_prop in Hargs.
        inversion IH; subst. apply IHargs; [assumption | apply Hargs]. }
    unfold bind. rewrite Hl.
    case_eq (eval_list mw (eval_expr mw rho) (map (unshim tu) args) w);
      [intros [[vs w1] t1] Hev | reflexivity].
    assert (Hcall : linked_call mw tu f vs w1 = extcall mw (resolve tu f) vs w1).
    { case_eq (find_fun tu f); [intros fd Hfind | intros Hfind].
      - apply (linked_call_shim mw tu f fd vs w1 Htu Hfind).
        rewrite Hfind in Har. apply Nat.eqb_eq in Har.
        rewrite (eval_list_length _ _ _ _ _ _ _ Hev), length_map. exact Har.
      - unfold linked_call, resolve. rewrite Hfind. reflexivity. }
    rewrite Hcall. reflexivity.
Qed.

(** *** Under any order of evaluation *)

Lemma unshim_term_call {mw} tu f (args : list (term mw)) :
  unshim_term tu (Tcall f args) = Tcall (resolve tu f) (map (unshim_term tu) args).
Proof. reflexivity. Qed.

Lemma term_arities_call {mw} tu f (args : list (term mw)) :
  term_arities tu (Tcall f args)
  = match find_fun tu f with
    | Some fd => Nat.eqb (length args) (arity fd)
    | None => true
    end
    && forallb (term_arities tu) args.
Proof. reflexivity. Qed.

Lemma inject_unshim mw tu e :
  inject mw (unshim tu e) = unshim_term tu (inject mw e).
Proof.
  induction e as [x | e fld IH | f args IH] using expr_nested_ind.
  - reflexivity.
  - simpl. rewrite IH. reflexivity.
  - change (inject mw (unshim tu (Ecall f args)))
      with (Tcall (resolve tu f) (map (inject mw) (map (unshim tu) args))).
    change (inject mw (Ecall f args)) with (Tcall f (map (inject mw) args)).
    rewrite unshim_term_call. f_equal.
    induction IH as [|a args Ha _ IHargs]; simpl.
    + reflexivity.
    + rewrite Ha, IHargs. reflexivity.
Qed.

Lemma inject_arities mw tu e :
  term_arities tu (inject mw e) = arities_respected tu e.
Proof.
  induction e as [x | e fld IH | f args IH] using expr_nested_ind.
  - reflexivity.
  - simpl. exact IH.
  - change (inject mw (Ecall f args)) with (Tcall f (map (inject mw) args)).
    rewrite term_arities_call.
    change (arities_respected tu (Ecall f args))
      with (match find_fun tu f with
            | Some fd => Nat.eqb (length args) (arity fd)
            | None => true
            end && forallb (arities_respected tu) args).
    rewrite length_map. f_equal.
    induction IH as [|a args Ha _ IHargs]; simpl.
    + reflexivity.
    + rewrite Ha, IHargs. reflexivity.
Qed.

Lemma unshim_term_val_inv {mw} tu (t : term mw) v :
  unshim_term tu t = Tval v -> t = Tval v.
Proof. destruct t; simpl; intros H; first [ exact H | discriminate H ]. Qed.

Lemma unshim_term_vals {mw} tu (vs : list (val mw)) :
  map (unshim_term tu) (map Tval vs) = map Tval vs.
Proof. induction vs as [|v vs IH]; simpl; [reflexivity | rewrite IH; reflexivity]. Qed.

Lemma unshim_term_vals_inv {mw} tu (args : list (term mw)) vs :
  map (unshim_term tu) args = map Tval vs -> args = map Tval vs.
Proof.
  revert vs. induction args as [|a args IH]; intros [|v vs]; simpl; intros H;
    try discriminate H; try reflexivity.
  injection H as Ha Hargs.
  rewrite (unshim_term_val_inv tu a v Ha), (IH vs Hargs). reflexivity.
Qed.

Lemma linked_call_resolve mw tu f vs w :
  In tu shim_units ->
  (forall fd, find_fun tu f = Some fd -> length vs = arity fd) ->
  linked_call mw tu f vs w = linked_call mw [] (resolve tu f) vs w.
Proof.
  intros Htu Har.
  change (linked_call mw [] (resolve tu f) vs w) with (extcall mw (resolve tu f) vs w).
  case_eq (find_fun tu f); [intros fd Hfind | intros Hfind].
  - exact (linked_call_shim mw tu f fd vs w Htu Hfind (Har fd Hfind)).
  - unfold linked_call, resolve. rewrite Hfind. reflexivity.
Qed.

Lemma call_arity_of_values {mw} tu f (vs : list (val mw)) :
  term_arities tu (Tcall f (map Tval vs)) = true ->
  forall fd, find_fun tu f = Some fd -> length vs = arity fd.
Proof.
  rewrite term_arities_call. intros H fd Hfind. rewrite Hfind in H.
  apply andb_prop in H. destruct H as [H _].
  apply Nat.eqb_eq in H. rewrite length_map in H. exact H.
Qed.

Lemma term_arities_replace {mw} tu f (l1 l2 : list (term mw)) a a' :
  term_arities tu (Tcall f (l1 ++ a :: l2)) = true ->
  term_arities tu a' = true ->
  term_arities tu (Tcall f (l1 ++ a' :: l2)) = true.
Proof.
  rewrite !term_arities_call, !forallb_app, !length_app. simpl.
  intros H Ha'. apply andb_prop in H. destruct H as [Hn H].
  apply andb_prop in H. destruct H as [H1 H].
  apply andb_prop in H. destruct H as [_ H2].
  rewrite Hn, H1, Ha', H2. reflexivity.
Qed.

Lemma term_arities_arg {mw} tu f (l1 l2 : list (term mw)) a :
  term_arities tu (Tcall f (l1 ++ a :: l2)) = true ->
  term_arities tu a = true.
Proof.
  rewrite term_arities_call, forallb_app. simpl.
  intros H. apply andb_prop in H. destruct H as [_ H].
  apply andb_prop in H. destruct H as [_ H].
  apply andb_prop in H. destruct H as [H _]. exact H.
Qed.

Lemma step_unshim mw tu rho t w ev t' w' :
  In tu shim_units ->
  step mw tu rho t w ev t' w' ->
  term_arities tu t = true ->
  step mw [] rho (unshim_term tu t) w ev (unshim_term tu t') w' /\
  term_arities tu t' = true.
Proof.
  intros Htu Hstep.
  induction Hstep as [x v w Hx | v fld u w Hu | t fld w ev t' w' Hs IH
                     | f l1 a l2 w ev a' w' Hs IH | f vs w v w' ev Hc];
    intros Har.
  - split; [apply step_var; exact Hx | reflexivity].
  - split; [apply step_field; exact Hu | reflexivity].
  - destruct (IH Har) as [Hs' Har'].
    split; [apply step_in_field; exact Hs' | exact Har'].
  - destruct (IH (term_arities_arg tu f l1 l2 a Har)) as [Hs' Har'].
    split.
    + rewrite !unshim_term_call, !map_app. simpl.
      apply step_in_arg. exact Hs'.
    + exact (term_arities_replace tu f l1 l2 a a' Har Har').
  - split; [ | reflexivity].
    rewrite unshim_term_call, unshim_term_vals.
    apply step_call.
    rewrite <- (linked_call_resolve mw tu f vs w Htu (call_arity_of_values tu f vs Har)).
    exact Hc.
Qed.

Lemma step_unshim_inv mw tu rho t w ev u w' :
  In tu shim_units ->
  term_arities tu t = true ->
  step mw [] rho (unshim_term tu t) w ev u w' ->
  exists t',
    u = unshim_term tu t' /\
    step mw tu rho t w ev t' w' /\
    term_arities tu t' = true.
Proof.
  intros Htu Har Hstep.
  remember (unshim_term tu t) as s0 eqn:Hs0.
  revert t Hs0 Har.
  induction Hstep as [x v w Hx | v fld u w Hu | s fld w ev s' w' Hs IH
                     | f l1 a l2 w ev a' w' Hs IH | f vs w v w' ev Hc];
    intros t Hs0 Har.
  - destruct t as [v0 | x0 | t0 fld0 | f0 args0]; try discriminate Hs0.
    injection Hs0 as <-.
    exists (Tval v). split; [reflexivity | split; [apply step_var; exact Hx | reflexivity]].
  - destruct t as [v0 | x0 | t0 fld0 | f0 args0]; try discriminate Hs0.
    simpl in Hs0. injection Hs0 as Ht0 <-.
    symmetry in Ht0. apply unshim_term_val_inv in Ht0. subst t0.
    exists (Tval u). split; [reflexivity | split; [apply step_field; exact Hu | reflexivity]].
  - destruct t as [v0 | x0 | t0 fld0 | f0 args0]; try discriminate Hs0.
    simpl in Hs0. injection Hs0 as Ht0 <-.
    destruct (IH t0 Ht0 Har) as [t0' [Hu' [Hs' Har']]].
    exists (Tfield t0' fld). subst s'.
    split; [reflexivity | split; [apply step_in_field; exact Hs' | exact Har']].
  - destruct t as [v0 | x0 | t0 fld0 | f0 args0]; try discriminate Hs0.
    rewrite unshim_term_call in Hs0. injection Hs0 as Hf Hargs.
    symmetry in Hargs. apply map_eq_app in Hargs.
    destruct Hargs as [l1' [r [Hsplit [Hl1 Hr]]]].
    apply map_eq_cons in Hr. destruct Hr as [a0 [l2' [Hr [Ha0 Hl2]]]].
    subst args0 r l1 l2 f.
    destruct (IH a0 (eq_sym Ha0) (term_arities_arg tu f0 l1' l2' a0 Har))
      as [a0' [Hu' [Hs' Har']]].
    exists (Tcall f0 (l1' ++ a0' :: l2')). subst a'.
    split; [ | split].
    + rewrite unshim_term_call, map_app. reflexivity.
    + apply step_in_arg. exact Hs'.
    + exact (term_arities_replace tu f0 l1' l2' a0 a0' Har Har').
  - destruct t as [v0 | x0 | t0 fld0 | f0 args0]; try discriminate Hs0.
    rewrite unshim_term_call in Hs0. injection Hs0 as Hf Hargs.
    symmetry in Hargs. apply unshim_term_vals_inv in Hargs. subst args0 f.
    exists (Tval v). split; [reflexivity | split; [ | reflexivity]].
    apply step_call.
    rewrite (linked_call_resolve mw tu f0 vs w Htu (call_arity_of_values tu f0 vs Har)).
    exact Hc.
Qed.

Lemma reaches_unshim mw tu rho t w v w' tr :
  In tu shim_units ->
  reaches mw tu rho t w v w' tr ->
  term_arities tu t = true ->
  reaches mw [] rho (unshim_term tu t) w v w' tr.
Proof.
  intros Htu Hr.
  induction Hr as [v w | t w ev t1 w1 v w2 tr Hs _ IH]; intros Har.
  - apply reaches_val.
  - destruct (step_unshim mw tu rho t w ev t1 w1 Htu Hs Har) as [Hs' Har'].
    exact (reaches_step mw [] rho _ _ _ _ _ _ _ _ Hs' (IH Har')).
Qed.

Lemma reaches_unshim_inv mw tu rho t w v w' tr :
  In tu shim_units ->
  term_arities tu t = true ->
  reaches mw [] rho (unshim_term tu t) w v w' tr ->
  reaches mw tu rho t w v w' tr.
Proof.
  intros Htu Har Hr.
  remember (unshim_term tu t) as s0 eqn:Hs0.
  revert t Hs0 Har.
  induction Hr as [v w | s w ev s1 w1 v w2 tr Hs _ IH]; intros t Hs0 Har.
  - symmetry in Hs0. apply unshim_term_val_inv in Hs0. subst t.
    apply reaches_val.
  - subst s.
    destruct (step_unshim_inv mw tu rho t w ev s1 w1 Htu Har Hs)
      as [t1 [Hs1 [Hstep Har1]]].
    exact (reaches_step mw tu rho _ _ _ _ _ _ _ _ Hstep (IH t1 Hs1 Har1)).
Qed.


(** A client expression with two calls among the arguments of a third,
    and its arguments evaluated from right to left. *)
Lemma direct_calls_right_to_left :
  reaches toy [] [("a", 1%Z); ("b", 2%Z)]
    (inject toy
       (Ecall "OS_TimeAdd"
          [Ecall "OS_TimeGetTotalSeconds" [Evar "a"];
           Ecall "OS_TimeGetTotalSeconds" [Evar "b"]]))
    0 3%Z 3
    [("OS_TimeGetTotalSeconds", [2%Z]);
     ("OS_TimeGetTotalSeconds", [1%Z]);
     ("OS_TimeAdd", [1%Z; 2%Z])].
Proof.
  refine (reaches_step toy [] _ _ 0 []
            (@Tcall toy "OS_TimeAdd"
               [@Tcall toy "OS_TimeGetTotalSeconds" [@Tvar toy "a"];
                @Tcall toy "OS_TimeGetTotalSeconds" [@Tval toy 2%Z]])
            0 _ _ _ _ _).
  { apply (step_in_arg toy [] _ "OS_TimeAdd"
             [@Tcall toy "OS_TimeGetTotalSeconds" [@Tvar toy "a"]]
             (@Tcall toy "OS_TimeGetTotalSeconds" [@Tvar toy "b"]) []).
    apply (step_in_arg toy [] _ "OS_TimeGetTotalSeconds" [] (@Tvar toy "b") []).
    apply step_var. reflexivity. }
  refine (reaches_step toy [] _ _ 0 [("OS_TimeGetTotalSeconds", [2%Z])]
            (@Tcall toy "OS_TimeAdd"
               [@Tcall toy "OS_TimeGetTotalSeconds" [@Tvar toy "a"]; @Tval toy 2%Z])
            1 _ _ _ _ _).
  { apply (step_in_arg toy [] _ "OS_TimeAdd"
             [@Tcall toy "OS_TimeGetTotalSeconds" [@Tvar toy "a"]]
             (@Tcall toy "OS_TimeGetTotalSeconds" [@Tval toy 2%Z]) []).
    apply (step_call toy [] _ "OS_TimeGetTotalSeconds" [2%Z]). reflexivity. }
  refine (reaches_step toy [] _ _ 1 []
            (@Tcall toy "OS_TimeAdd"
               [@Tcall toy "OS_TimeGetTotalSeconds" [@Tval toy 1%Z]; @Tval toy 2%Z])
            1 _ _ _ _ _).
  { apply (step_in_arg toy [] _ "OS_TimeAdd" []
             (@Tcall toy "OS_TimeGetTotalSeconds" [@Tvar toy "a"]) [@Tval toy 2%Z]).
    apply (step_in_arg toy [] _ "OS_TimeGetTotalSeconds" [] (@Tvar toy "a") []).
    apply step_var. reflexivity. }
  refine (reaches_step toy [] _ _ 1 [("OS_TimeGetTotalSeconds", [1%Z])]
            (@Tcall toy "OS_TimeAdd" [@Tval toy 1%Z; @Tval toy 2%Z])
            2 _ _ _ _ _).
  { apply (step_in_arg toy [] _ "OS_TimeAdd" []
             (@Tcall toy "OS_TimeGetTotalSeconds" [@Tval toy 1%Z]) [@Tval toy 2%Z]).
    apply (step_call toy [] _ "OS_TimeGetTotalSeconds" [1%Z]). reflexivity. }
  refine (reaches_step toy [] _ _ 2 [("OS_TimeAdd", [1%Z; 2%Z])]
            (@Tval toy 3%Z) 3 _ _ [] _ _).
  { apply (step_call toy [] _ "OS_TimeAdd" [1%Z; 2%Z]). reflexivity. }
  apply reaches_val.
Defined.


Lemma nested_call_outcome mw (to from : ident) v i w w1 w2 :
  mw_call mw to [v] w = Some (i, w1) ->
  mw_call mw from [i] w1 = Some (v, w2) ->
  eval_expr mw [("x", v)] (Ecall from [Ecall to [Evar "x"]]) w
  = Some (v, w2, [(to, [v]); (from, [i])]).
Proof.
  intros Hto Hfrom.
  rewrite eval_expr_call, eval_list_cons, eval_expr_call, eval_list_cons.
  unfold bind, ret, extcall, lift, eval_var. simpl.
  rewrite Hto, Hfrom. reflexivity.
Qed.

Lemma there_and_back_unshim tu to from :
  In tu shim_units ->
  In (to, from) conversion_pairs ->
  arities_respected tu (there_and_back to from) = true /\
  unshim tu (there_and_back to from) = Ecall from [Ecall to [Evar "x"]].
Proof.
  intros Htu Hp.
  destruct (shim_unit_cases tu Htu); subst tu;
    destruct Hp as [Hp | [Hp | [Hp | []]]]; injection Hp as <- <-;
    split; vm_compute; reflexivity.
Qed.

(** X8.  Converting a resource id, a message id or an OSAL object id to its
    number and back, both times through the shims: whenever the
    middleware's two conversions undo one another on a value, the
    round trip through the shims returns that value, having made just those
    two middleware calls. *)
Theorem conversions_round_trip_through_shims :
  forall (mw : middleware) (tu : list fundef) (to from : ident)
         (v i : val mw) (w w1 w2 : world mw),
    In tu shim_units ->
    In (to, from) conversion_pairs ->
    mw_call mw to [v] w = Some (i, w1) ->
    mw_call mw from [i] w1 = Some (v, w2) ->
    eval_client mw tu [("x", v)] (there_and_back to from) w
    = Some (v, w2, [(to, [v]); (from, [i])]).
Proof.
  intros mw tu to from v i w w1 w2 Htu Hp Hto Hfrom.
  destruct (there_and_back_unshim tu to from Htu Hp) as [Hok Hun].
  rewrite (client_sees_middleware mw tu _ _ Htu Hok w), Hun.
  exact (nested_call_outcome mw to from v i w w1 w2 Hto Hfrom).
Qed.

Lemma conversions_round_trip_through_shims_witness :
  In Shims.cfs_shims_c shim_units /\
  In ("OS_ObjectIdToInteger", "OS_ObjectIdFromInteger") conversion_pairs /\
  mw_call toy "OS_ObjectIdToInteger" [42%Z] 0 = Some (42%Z, 1) /\
  mw_call toy "OS_ObjectIdFromInteger" [42%Z] 1 = Some (42%Z, 2) /\
  eval_client toy Shims.cfs_shims_c [("x", 42%Z)]
    (Ecall "SHIM_OS_ObjectIdFromInteger"
       [Ecall "SHIM_OS_ObjectIdToInteger" [Evar "x"]]) 0
  = Some (42%Z, 2,
          [("OS_ObjectIdToInteger", [42%Z]); ("OS_ObjectIdFromInteger", [42%Z])]).
Proof.
  split; [exact top_unit | ].
  split; [right; right; left; reflexivity | ].
  split; [reflexivity | ].
  split; [reflexivity | ].
  exact (conversions_round_trip_through_shims toy Shims.cfs_shims_c
           "OS_ObjectIdToInteger" "OS_ObjectIdFromInteger"
           42%Z 42%Z 0 1 2 top_unit
           (or_intror (or_intror (or_introl eq_refl))) eq_refl eq_refl).
Defined.
